(** * HoloLearn: response orchestration core

    A shallow embedding of the orchestration code of the HoloLearn front-end
    (classes [SceneManager], [VoiceSystem], [QuizEngine], [AIOrchestrator] and
    [UIManager]) together with the properties its design document states about
    intent resolution, template fallback, the scene-action executor and topic
    switching.

    Modelling conventions.
    - JavaScript numbers occurring in templates are decimal literals; they are
      represented by their exact rational value ([Q]).  The modelled code only
      tests them for truthiness and passes them on.  The value stands for the
      double the literal is read as; a literal too small to be read as
      anything but [0] is falsy in the code and is excluded, by
      [reads_nonzero], where a statement is about values other than zero.
      [NaN] is not a literal and has no counterpart.
    - JavaScript objects used as dictionaries ([topics], [responses],
      [models], [availableModels]) are finite maps with string keys.  A
      lookup in the code also finds the members every object inherits
      ([constructor], [toString], ...); the maps have no such entries, and
      statements about keys that are absent from a dictionary are made for
      keys that are not such names ([inherited_key]).
    - THREE objects are references: they live in a heap (a list indexed by
      allocation order) and the scene graph, the model cache and the
      animations all point into it.
    - Strings are sequences of bytes; [toLowerCase] acts on the ASCII letters,
      which is all the keyword matching can observe.
    - The code is read at two grains.  In [SceneManager] and [UIManager] an
      [await] on the asset loader is the point where the loader's callback
      runs, its outcome being given by an oracle [fetch]: a turn is taken
      with every request it makes answered before anything else happens.
      In [EventLoop] a request and its callback are apart, the callback is a
      task of its own, and turns overlap when the user does not wait.  The
      first reading is the second with the loader answering at once
      ([served_reply]). *)

From Stdlib Require Import QArith Qabs String Ascii List.
From stdpp Require Import base option list gmap strings.

Open Scope string_scope.
Open Scope list_scope.

(** ** Strings: [toLowerCase] and [includes] *)

Definition lower_ascii (c : ascii) : ascii :=
  let n := nat_of_ascii c in
  if (Nat.leb 65 n && Nat.leb n 90)%bool then ascii_of_nat (n + 32) else c.

Fixpoint toLowerCase (s : string) : string :=
  match s with
  | EmptyString => EmptyString
  | String c s' => String (lower_ascii c) (toLowerCase s')
  end.

Fixpoint startsWith (needle s : string) : bool :=
  match needle, s with
  | EmptyString, _ => true
  | String _ _, EmptyString => false
  | String a n', String b s' => if decide (a = b) then startsWith n' s' else false
  end.

(** [s.includes(needle)]: [needle] occurs at some offset of [s]. *)
Fixpoint includes (s needle : string) : bool :=
  startsWith needle s ||
  match s with
  | EmptyString => false
  | String _ s' => includes s' needle
  end.

(** ** Numbers, vectors and truthiness *)

Record Vec3 := mkVec3 { vx : Q; vy : Q; vz : Q }.

Definition origin : Vec3 := mkVec3 0 0 0.

(** A number is falsy exactly when it is zero. *)
Definition truthy (q : Q) : bool := negb (Qeq_bool q 0).

(** [field || dflt] on an optional numeric field: an absent field is
    [undefined], which is falsy, and so is a present [0]. *)
Definition num_or (field : option Q) (dflt : Q) : Q :=
  match field with
  | Some q => if truthy q then q else dflt
  | None => dflt
  end.

(** [field || dflt] on an optional object field: objects are always truthy. *)
Definition obj_or {A : Type} (field : option A) (dflt : A) : A :=
  match field with
  | Some a => a
  | None => dflt
  end.

(** ** Data of the topic registry *)

(** Scene actions are duck-typed objects discriminated by their [type] field,
    ['loadModel'] or ['animate']; every field besides the discriminators and
    the model key is optional. *)
Inductive Action :=
| LoadModelAction (model : string) (position : option Vec3) (scale : option Q)
| AnimateAction (animation : string) (object : string) (center : option Vec3)
    (speed radius intensity : option Q).

Definition action_type (a : Action) : string :=
  match a with
  | LoadModelAction _ _ _ => "loadModel"
  | AnimateAction _ _ _ _ _ _ => "animate"
  end.

Record Quiz := mkQuiz {
  question : string;
  options : list string;
  correctAnswer : string;
  correctFeedback : string;
  incorrectFeedback : string
}.

Record ResponseTemplate := mkResponse {
  narration : string;
  actions : list Action;
  quiz : option Quiz
}.

Record Topic := mkTopic {
  name : string;
  description : string;
  responses : gmap string ResponseTemplate
}.

Record ResponseBundle := mkBundle {
  topic : string;
  intent : string;
  response : ResponseTemplate
}.

(** ** AIOrchestrator *)

Module AIOrchestrator.

Definition solar_system : Topic :=
  mkTopic "Solar System" "Learn about our solar system and planetary motion"
    (list_to_map [
      ("explain", mkResponse
        "This is our solar system. The Sun is at the center, and planets like Earth orbit around it due to gravity. The Sun is a massive star that provides light and heat to all the planets in our solar system."
        [ LoadModelAction "sun" (Some (mkVec3 0 0 0)) (Some 1.5%Q);
          LoadModelAction "earth" (Some (mkVec3 3 0 0)) (Some 0.7%Q);
          AnimateAction "orbit" "earth" (Some (mkVec3 0 0 0)) (Some 0.01%Q) (Some 3%Q) None ]
        (Some (mkQuiz "What keeps Earth in orbit around the Sun?"
          [ "Electromagnetic forces"; "Gravity"; "Solar wind"; "Centrifugal force" ]
          "Gravity"
          "Correct! Gravity is the force that keeps Earth in orbit around the Sun."
          "Not quite. The correct answer is Gravity, which is the attractive force between two masses.")));
      ("scale", mkResponse
        "The scale of our solar system is enormous. The Sun is much larger than Earth - about 109 times wider. The distance between them is about 150 million kilometers!"
        [ LoadModelAction "sun" (Some (mkVec3 0 0 0)) (Some 2%Q);
          LoadModelAction "earth" (Some (mkVec3 5 0 0)) (Some 0.2%Q);
          AnimateAction "orbit" "earth" (Some (mkVec3 0 0 0)) (Some 0.005%Q) (Some 5%Q) None ]
        None) ]).

Definition heart_anatomy : Topic :=
  mkTopic "Heart Anatomy" "Explore the structure and function of the human heart"
    (list_to_map [
      ("explain", mkResponse
        "This is a model of the human heart. It has four chambers: two atria on top and two ventricles below. The heart pumps blood throughout the body, delivering oxygen and nutrients to tissues."
        [ LoadModelAction "heart" (Some (mkVec3 0 0 0)) (Some 1.2%Q);
          AnimateAction "beat" "heart" None (Some 0.1%Q) None (Some 0.1%Q) ]
        (Some (mkQuiz "How many chambers does the human heart have?"
          [ "2"; "3"; "4"; "5" ]
          "4"
          "That's right! The heart has four chambers: two atria and two ventricles."
          "Actually, the human heart has four chambers: two atria and two ventricles.")));
      ("function", mkResponse
        "The heart functions as a pump. The right side receives oxygen-poor blood and sends it to the lungs. The left side receives oxygen-rich blood from the lungs and pumps it to the body."
        [ LoadModelAction "heart" (Some (mkVec3 0 0 0)) (Some 1.2%Q);
          AnimateAction "beat" "heart" None (Some 0.15%Q) None (Some 0.15%Q) ]
        None) ]).

Definition volcano : Topic :=
  mkTopic "Volcano" "Learn about volcanic structures and eruptions"
    (list_to_map [
      ("explain", mkResponse
        "This is a volcano. It forms when magma from within the Earth erupts through the crust. Volcanoes can be found on land and under the ocean, and they play a key role in shaping Earth's surface."
        [ LoadModelAction "volcano" (Some (mkVec3 0 (-1) 0)) (Some 1.5%Q) ]
        (Some (mkQuiz "What is molten rock beneath the Earth's surface called?"
          [ "Lava"; "Magma"; "Igneous"; "Basalt" ]
          "Magma"
          "Correct! Magma is molten rock below the surface, which becomes lava when it erupts."
          "Not quite. The correct answer is Magma. Lava is what it's called after it erupts.")));
      ("eruption", mkResponse
        "During a volcanic eruption, magma rises through the volcano's conduit and is expelled as lava, ash, and gases. The type of eruption depends on the magma's viscosity and gas content."
        [ LoadModelAction "volcano" (Some (mkVec3 0 (-1) 0)) (Some 1.5%Q);
          AnimateAction "pulse" "volcano" None (Some 0.2%Q) None (Some 0.05%Q) ]
        None) ]).

(** The registry built by the constructor ([this.topics]). *)
Definition topics : gmap string Topic :=
  list_to_map [
    ("solar-system", solar_system);
    ("heart-anatomy", heart_anatomy);
    ("volcano", volcano) ].

(** The "simple intent detection" chain at the head of [processQuery]. *)
Definition detectIntent (topic query : string) : string :=
  if includes (toLowerCase query) "explain" then "explain"
  else if includes (toLowerCase query) "scale" && bool_decide (topic = "solar-system") then "scale"
  else if includes (toLowerCase query) "function" && bool_decide (topic = "heart-anatomy") then "function"
  else if includes (toLowerCase query) "eruption" && bool_decide (topic = "volcano") then "eruption"
  else "unknown".

(** The object literal returned when a topic has no [explain] entry. *)
Definition fallbackResponse : ResponseTemplate :=
  mkResponse "I'm not sure how to answer that. Try asking me to explain this topic." [] None.

(** [processQuery]: [None] is the [null] returned for an unregistered topic. *)
Definition processQuery (registry : gmap string Topic) (topic query : string)
  : option ResponseBundle :=
  let intent := detectIntent topic query in
  match registry !! topic with
  | None => None
  | Some topicData =>
    match responses topicData !! intent with
    | Some r => Some (mkBundle topic intent r)
    | None =>
      Some (mkBundle topic "explain"
              (obj_or (responses topicData !! "explain") fallbackResponse))
    end
  end.

End AIOrchestrator.

(** ** Run-time state *)

(** A THREE object.  [source] records the model key whose asset the object
    is the root of ([None] for the lights set up by [init]); [pointLight]
    tells whether a [PointLight] child was attached. *)
Record Object3D := mkObject {
  source : option string;
  obj_position : Vec3;
  obj_scale : Vec3;
  pointLight : bool
}.

(** The animation objects pushed on [this.animations]; [anim_object] is a
    reference into the heap. *)
Inductive Animation :=
| OrbitAnimation (anim_object : nat) (center : Vec3) (angle radius speed : Q)
| BeatingAnimation (anim_object : nat) (originalScale : Vec3) (time speed intensity : Q).

Inductive JsError :=
| ModelNotAvailable (modelName : string)
| LoaderError (url : string)
| TypeError (msg : string).

(** Lines written with [console.error]. *)
Inductive LogEntry :=
| ErrorLoadingModel (error : JsError)
| ErrorExecutingAction (type : string) (error : JsError)
| ErrorLoadingTopic (error : JsError)
| ErrorProcessingQuery (error : JsError).

Record ChatMessage := mkChat { sender : string; message : string; msg_type : string }.

(** The state of the application: the heap of THREE objects and the children
    of the scene, the model cache and the animations of the scene manager,
    the number of requests handed to the asset loader so far, the voice
    switch and the texts handed to the synthesiser, the quiz held by the quiz
    engine, the current topic of the UI manager, the chat log and the
    console. *)
Record World := mkWorld {
  heap : list Object3D;
  children : list nat;
  models : gmap string nat;
  animations : list Animation;
  requests : nat;
  isVoiceEnabled : bool;
  utterances : list string;
  currentQuiz : option Quiz;
  currentTopic : option string;
  chat : list ChatMessage;
  console : list LogEntry
}.

Definition set_heap (f : list Object3D → list Object3D) (w : World) : World :=
  mkWorld (f (heap w)) (children w) (models w) (animations w) (requests w)
    (isVoiceEnabled w) (utterances w) (currentQuiz w) (currentTopic w) (chat w) (console w).

Definition set_children (f : list nat → list nat) (w : World) : World :=
  mkWorld (heap w) (f (children w)) (models w) (animations w) (requests w)
    (isVoiceEnabled w) (utterances w) (currentQuiz w) (currentTopic w) (chat w) (console w).

Definition set_models (f : gmap string nat → gmap string nat) (w : World) : World :=
  mkWorld (heap w) (children w) (f (models w)) (animations w) (requests w)
    (isVoiceEnabled w) (utterances w) (currentQuiz w) (currentTopic w) (chat w) (console w).

Definition set_animations (f : list Animation → list Animation) (w : World) : World :=
  mkWorld (heap w) (children w) (models w) (f (animations w)) (requests w)
    (isVoiceEnabled w) (utterances w) (currentQuiz w) (currentTopic w) (chat w) (console w).

Definition set_requests (f : nat → nat) (w : World) : World :=
  mkWorld (heap w) (children w) (models w) (animations w) (f (requests w))
    (isVoiceEnabled w) (utterances w) (currentQuiz w) (currentTopic w) (chat w) (console w).

Definition set_utterances (f : list string → list string) (w : World) : World :=
  mkWorld (heap w) (children w) (models w) (animations w) (requests w)
    (isVoiceEnabled w) (f (utterances w)) (currentQuiz w) (currentTopic w) (chat w) (console w).

Definition set_currentQuiz (q : option Quiz) (w : World) : World :=
  mkWorld (heap w) (children w) (models w) (animations w) (requests w)
    (isVoiceEnabled w) (utterances w) q (currentTopic w) (chat w) (console w).

Definition set_currentTopic (t : option string) (w : World) : World :=
  mkWorld (heap w) (children w) (models w) (animations w) (requests w)
    (isVoiceEnabled w) (utterances w) (currentQuiz w) t (chat w) (console w).

Definition set_chat (f : list ChatMessage → list ChatMessage) (w : World) : World :=
  mkWorld (heap w) (children w) (models w) (animations w) (requests w)
    (isVoiceEnabled w) (utterances w) (currentQuiz w) (currentTopic w) (f (chat w)) (console w).

Definition set_console (f : list LogEntry → list LogEntry) (w : World) : World :=
  mkWorld (heap w) (children w) (models w) (animations w) (requests w)
    (isVoiceEnabled w) (utterances w) (currentQuiz w) (currentTopic w) (chat w) (f (console w)).

Definition set_isVoiceEnabled (f : bool → bool) (w : World) : World :=
  mkWorld (heap w) (children w) (models w) (animations w) (requests w)
    (f (isVoiceEnabled w)) (utterances w) (currentQuiz w) (currentTopic w) (chat w) (console w).

(** ** Computations: state and exceptions *)

Inductive Completion (A : Type) :=
| Normal (a : A)
| Throw (error : JsError).
Arguments Normal {A} a.
Arguments Throw {A} error.

(** A computation runs on the world and completes normally or abruptly; for
    an [async] function the abrupt completion is the rejection of the promise
    it returns, as seen by whoever awaits it. *)
Definition M (A : Type) : Type := World → Completion A * World.

#[global] Instance M_ret : MRet M := λ A a w, (Normal a, w).

#[global] Instance M_bind : MBind M := λ A B f m w,
  match m w with
  | (Normal a, w') => f a w'
  | (Throw e, w') => (Throw e, w')
  end.

Definition throw {A : Type} (e : JsError) : M A := λ w, (Throw e, w).

(** [try { body } catch (error) { handler }] *)
Definition try_catch {A : Type} (body : M A) (handler : JsError → M A) : M A := λ w,
  match body w with
  | (Normal a, w') => (Normal a, w')
  | (Throw e, w') => handler e w'
  end.

Definition gets {A : Type} (f : World → A) : M A := λ w, (Normal (f w), w).

Definition modify (f : World → World) : M unit := λ w, (Normal tt, f w).

(** A call of an [async] function whose promise is dropped: its effects
    happen, its completion reaches nobody.  The effects are taken as a
    whole, which is what happens when the loader answers the function's
    requests before any other task runs; [EventLoop] has the call return at
    the first request. *)
Definition detached {A : Type} (m : M A) : M unit := λ w, (Normal tt, (m w).2).

Definition console_error (entry : LogEntry) : M unit :=
  modify (set_console (λ l, l ++ [entry])).

(** ** SceneManager *)

Module SceneManager.

Definition availableModels : gmap string string :=
  list_to_map [
    ("sun", "https://cdn.jsdelivr.net/gh/mrdoob/three.js@dev/examples/models/gltf/Planet.glb");
    ("earth", "https://cdn.jsdelivr.net/gh/mrdoob/three.js@dev/examples/models/gltf/Earth.glb");
    ("heart", "https://cdn.jsdelivr.net/gh/mrdoob/three.js@dev/examples/models/gltf/Heart.glb");
    ("volcano", "https://cdn.jsdelivr.net/gh/mrdoob/three.js@dev/examples/models/gltf/Volcano.glb") ].

(** [scene.add(object)] for an object that has no parent yet, and
    [scene.remove(object)]; the children of a scene hold no object twice. *)
Definition scene_add (object : nat) (w : World) : World :=
  set_children (λ l, l ++ [object]) w.

Definition scene_remove (object : nat) (w : World) : World :=
  set_children (filter (λ c, c ≠ object)) w.

(** Allocation of a THREE object; its reference is its index in the heap. *)
Definition new_object (o : Object3D) : M nat := λ w,
  (Normal (length (heap w)), set_heap (λ h, h ++ [o]) w).

(** The state the constructor and [init] leave behind: an empty cache, no
    animation, and a scene holding the ambient and the directional light. *)
Definition init : World :=
  mkWorld
    [ mkObject None origin (mkVec3 1 1 1) false;
      mkObject None (mkVec3 1 1 1) (mkVec3 1 1 1) false ]
    [0; 1] ∅ [] 0 true [] None None [] [].

Section Loader.

(** [fetch n url] tells whether the [n]-th request handed to [GLTFLoader.load],
    which is for [url], ends in the success callback. *)
Variable fetch : nat → string → bool.

(** [loadModel(modelName, position = {x: 0, y: 0, z: 0}, scale = 1)], as seen
    through the [await] on the promise it returns: the resolved model, or the
    rejection reason thrown.  The request handed to the loader and the
    callback that answers it are taken together, nothing running in between;
    [EventLoop.advance] and [EventLoop.settle] take them apart.  A parameter
    default applies to an argument that is not passed. *)
Definition loadModel (modelName : string) (position : option Vec3) (scale : option Q)
  : M nat :=
  let position := default origin position in
  let scale := default 1%Q scale in
  cached ← gets (λ w, models w !! modelName);
  match cached with
  | Some model => mret model
  | None =>
    match availableModels !! modelName with
    | None => throw (ModelNotAvailable modelName)
    | Some url =>
      n ← gets requests;
      modify (set_requests S);;
      if fetch n url then
        model ← new_object
          (mkObject (Some modelName) position (mkVec3 scale scale scale)
             (bool_decide (modelName = "sun")));
        modify (scene_add model);;
        modify (set_models (λ m, <[modelName := model]> m));;
        mret model
      else
        console_error (ErrorLoadingModel (LoaderError url));;
        throw (LoaderError url)
    end
  end.

End Loader.

Definition clearScene : M unit :=
  ms ← gets (λ w, (map_to_list (models w)).*2);
  modify (λ w, foldr scene_remove w ms);;
  modify (set_models (λ _, ∅));;
  modify (set_animations (λ _, [])).

Definition addAnimation (animation : Animation) : M unit :=
  modify (set_animations (λ l, l ++ [animation])).

(** [createOrbitAnimation(object, center, speed = 0.01, radius = 3)] *)
Definition createOrbitAnimation (object : nat) (center : Vec3) (speed radius : option Q)
  : M Animation :=
  let speed := default 0.01%Q speed in
  let radius := default 3%Q radius in
  let animation := OrbitAnimation object center 0 radius speed in
  addAnimation animation;;
  mret animation.

(** [createBeatingAnimation(object, speed = 0.05, intensity = 0.1)];
    [object.scale.clone()] reads the object. *)
Definition createBeatingAnimation (object : nat) (speed intensity : option Q)
  : M Animation :=
  let speed := default 0.05%Q speed in
  let intensity := default 0.1%Q intensity in
  o ← gets (λ w, heap w !! object);
  match o with
  | None => throw (TypeError "Cannot read properties of undefined (reading 'scale')")
  | Some o =>
    let animation := BeatingAnimation object (obj_scale o) 0 speed intensity in
    addAnimation animation;;
    mret animation
  end.

End SceneManager.

(** ** VoiceSystem and QuizEngine *)

Module VoiceSystem.

Definition speak (text : string) : M unit :=
  gets isVoiceEnabled ≫= λ enabled : bool,
  if enabled then modify (set_utterances (λ l, l ++ [text])) else mret tt.

(** [toggleVoice]: flips the switch and returns its new value. *)
Definition toggleVoice : M bool :=
  modify (set_isVoiceEnabled negb);;
  gets isVoiceEnabled.

End VoiceSystem.

Module QuizEngine.

Definition createQuiz (quizData : Quiz) : M Quiz :=
  modify (set_currentQuiz (Some quizData));;
  mret quizData.

(** The object [checkAnswer] returns. *)
Record AnswerResult := mkAnswerResult {
  isCorrect : bool;
  result_correctAnswer : string;
  feedback : string
}.

(** [checkAnswer]: [None] is the [null] returned when no quiz is current. *)
Definition checkAnswer (selectedOption : string) : M (option AnswerResult) :=
  gets currentQuiz ≫= λ current : option Quiz,
  match current with
  | None => mret None
  | Some q =>
    let isCorrect := bool_decide (selectedOption = correctAnswer q) in
    mret (Some (mkAnswerResult isCorrect (correctAnswer q)
                  (if isCorrect then correctFeedback q else incorrectFeedback q)))
  end.

End QuizEngine.

(** ** UIManager *)

Module UIManager.

Import AIOrchestrator SceneManager.

Definition addChatMessage (sender message type : string) : M unit :=
  modify (set_chat (λ l, l ++ [mkChat sender message type])).

(** [displayQuiz]: hands the quiz to the quiz engine and renders it. *)
Definition displayQuiz (quizData : Quiz) : M unit :=
  QuizEngine.createQuiz quizData;;
  mret tt.

(** What [handleQuizAnswer] writes to the feedback element. *)
Record Feedback := mkFeedback { textContent : string; className : string }.

(** [handleQuizAnswer]: the value returned is what the feedback element is
    set to and made visible with; [None] when the element is left alone. *)
Definition handleQuizAnswer (selectedOption : string) : M (option Feedback) :=
  result ← QuizEngine.checkAnswer selectedOption;
  match result with
  | None => mret None
  | Some result =>
    VoiceSystem.speak
      (if QuizEngine.isCorrect result
       then "Correct! " +:+ QuizEngine.feedback result
       else "Incorrect. " +:+ QuizEngine.feedback result);;
    mret (Some (mkFeedback (QuizEngine.feedback result)
                  ("quiz-feedback " +:+
                   (if QuizEngine.isCorrect result then "correct" else "incorrect"))))
  end.

Section Turns.

Variable fetch : nat → string → bool.
Variable registry : gmap string Topic.

(** The [switch (action.type)] statement inside the [try] block. *)
Definition executeAction (action : Action) : M unit :=
  match action with
  | LoadModelAction model position scale =>
    loadModel fetch model (Some (obj_or position origin)) (Some (num_or scale 1%Q));;
    mret tt
  | AnimateAction animation object center speed radius intensity =>
    model ← gets (λ w, models w !! object);
    match model with
    | Some model =>
      if decide (animation = "orbit") then
        createOrbitAnimation model (obj_or center origin)
          (Some (num_or speed 0.01%Q)) (Some (num_or radius 3%Q));;
        mret tt
      else if decide (animation = "beat") then
        createBeatingAnimation model
          (Some (num_or speed 0.1%Q)) (Some (num_or intensity 0.1%Q));;
        mret tt
      else if decide (animation = "pulse") then
        createBeatingAnimation model
          (Some (num_or speed 0.2%Q)) (Some (num_or intensity 0.05%Q));;
        mret tt
      else mret tt
    | None => mret tt
    end
  end.

(** One iteration of the loop: the [try] block and its [catch] clause. *)
Definition tryAction (action : Action) : M unit :=
  try_catch (executeAction action)
    (λ error, console_error (ErrorExecutingAction (action_type action) error)).

Fixpoint executeSceneActions (actions : list Action) : M unit :=
  match actions with
  | [] => mret tt
  | action :: rest => tryAction action;; executeSceneActions rest
  end.

(** [handleAIResponse].  The executor is called without [await] and its
    promise is dropped.  Here the loader answers the executor's requests
    before any other task runs, so its actions are the next to touch the
    scene; [displayQuiz], which runs while the executor waits for its first
    asset, writes the quiz engine only.  [EventLoop.handleAIResponse] is the
    function without that proviso. *)
Definition handleAIResponse (reply : option ResponseBundle) : M unit :=
  match reply with
  | None => mret tt
  | Some r =>
    addChatMessage "AI Teacher" (narration (response r)) "ai";;
    VoiceSystem.speak (narration (response r));;
    detached (executeSceneActions (actions (response r)));;
    match quiz (response r) with
    | Some q => displayQuiz q
    | None => mret tt
    end
  end.

(** [loadTopic]; the read of [topics[topicId].name] throws when the topic is
    not registered. *)
Definition loadTopic (topicId : string) : M unit :=
  modify (set_currentTopic (Some topicId));;
  clearScene;;
  topicData ← match registry !! topicId with
              | Some t => mret t
              | None => throw (TypeError "Cannot read properties of undefined (reading 'name')")
              end;
  addChatMessage "AI Teacher" ("Loading " +:+ name topicData +:+ " lesson...") "ai";;
  try_catch
    (handleAIResponse (processQuery registry topicId "explain"))
    (λ error,
       console_error (ErrorLoadingTopic error);;
       addChatMessage "AI Teacher" "Sorry, I encountered an error loading this topic." "ai").

(** [handleUserInput], given the trimmed text of the input box; the loading
    indicator it shows is removed again on either path and is not kept. *)
Definition handleUserInput (userInput : string) : M unit :=
  if decide (userInput = "") then mret tt
  else
    addChatMessage "You" userInput "user";;
    current ← gets currentTopic;
    try_catch
      (handleAIResponse (processQuery registry (default "null" current) userInput))
      (λ error,
         console_error (ErrorProcessingQuery error);;
         addChatMessage "AI Teacher" "Sorry, I encountered an error processing your request." "ai").

End Turns.

End UIManager.

Import AIOrchestrator SceneManager UIManager.

(** ** The stand-alone scene script *)

(** The script of [app.js]: it keeps the meshes it has put in the scene in
    [activeObjects] and rebuilds the scene on every click of a topic button.
    A mesh is recorded by what it depicts; geometry, material and the motion
    data driven by the render loop are rendering matter and are not kept. *)
Module App.

Inductive Mesh :=
| Cube
| Sun
| Planet (index : nat) (distance : Q)
| Cone
| Particle
| Heart.

Record Stage := mkStage {
  meshes : list Mesh;
  sceneChildren : list nat;
  activeObjects : list nat
}.

(** [scene.add(mesh); activeObjects.push(mesh)] for a mesh just created. *)
Definition place (m : Mesh) (s : Stage) : Stage :=
  mkStage (meshes s ++ [m])
    (sceneChildren s ++ [length (meshes s)])
    (activeObjects s ++ [length (meshes s)]).

Definition clearScene (s : Stage) : Stage :=
  mkStage (meshes s)
    (foldl (λ ch obj, filter (λ c, c ≠ obj) ch) (sceneChildren s) (activeObjects s))
    [].

Definition addCube (s : Stage) : Stage := place Cube s.

Definition addSolarSystem (s : Stage) : Stage :=
  foldl (λ s '(i, dist), place (Planet i dist) s) (place Sun s)
    (imap (λ i dist, (i, dist)) [2%Q; 3.5%Q; 5%Q]).

Definition addVolcano (s : Stage) : Stage :=
  Nat.iter 50 (place Particle) (place Cone s).

Definition addHeart (s : Stage) : Stage := place Heart s.

(** The click handler of a topic button; [topic] is the button's
    [data-topic] attribute, [None] when it has none. *)
Definition click (topic : option string) (s : Stage) : Stage :=
  let s := clearScene s in
  if decide (topic = Some "solar-system") then addSolarSystem s
  else if decide (topic = Some "volcano") then addVolcano s
  else if decide (topic = Some "heart-anatomy") then addHeart s
  else addCube s.

(** The stage once the script has run: the default cube. *)
Definition start : Stage := addCube (mkStage [] [] []).

Definition clicks (history : list (option string)) (s : Stage) : Stage :=
  foldl (λ s topic, click topic s) s history.

(** What the scene shows, in order. *)
Definition shown (s : Stage) : list Mesh :=
  omap (λ obj, meshes s !! obj) (sceneChildren s).

(** What a topic button is meant to show. *)
Definition population (topic : option string) : list Mesh :=
  if decide (topic = Some "solar-system")
  then [Sun; Planet 0 2%Q; Planet 1 3.5%Q; Planet 2 5%Q]
  else if decide (topic = Some "volcano") then Cone :: replicate 50 Particle
  else if decide (topic = Some "heart-anatomy") then [Heart]
  else [Cube].

(** The scene holds the active objects and nothing else, each once and each
    allocated. *)
Record stage_ok (s : Stage) : Prop := mkStageOk {
  stage_same : sceneChildren s = activeObjects s;
  stage_nodup : NoDup (sceneChildren s);
  stage_alloc : ∀ obj, obj ∈ sceneChildren s → obj < length (meshes s)
}.

End App.

(** ** The resolver as the design document words it *)

(** A keyword rule: the substring looked for, the topic it is gated to (if
    any) and the intent it yields. *)
Record Rule := mkRule { keyword : string; gate : option string; yields : string }.

Definition rules : list Rule :=
  [ mkRule "explain" None "explain";
    mkRule "scale" (Some "solar-system") "scale";
    mkRule "function" (Some "heart-anatomy") "function";
    mkRule "eruption" (Some "volcano") "eruption" ].

Definition rule_matches (topicId lowered : string) (r : Rule) : bool :=
  includes lowered (keyword r) &&
  match gate r with
  | None => true
  | Some t => bool_decide (topicId = t)
  end.

(** Lower-case the query, take the first rule that matches, [unknown] when
    none does. *)
Definition resolve (topicId rawQuery : string) : string :=
  match List.find (rule_matches topicId (toLowerCase rawQuery)) rules with
  | Some r => yields r
  | None => "unknown"
  end.

(** ** Observations on the registry and the scene *)

(** The check a registry validation would run on a template. *)
Definition quiz_answer_listed (r : ResponseTemplate) : bool :=
  match quiz r with
  | Some q => bool_decide (correctAnswer q ∈ options q)
  | None => true
  end.

(** The scene objects that are instances of the model [key]. *)
Definition instances_of (key : string) (w : World) : list nat :=
  filter (λ id, (heap w !! id) ≫= source = Some key) (children w).

Definition instances (key : string) (w : World) : nat :=
  length (instances_of key w).

(** The model keys a list of actions asks to load. *)
Definition load_keys (acts : list Action) : list string :=
  omap (λ a, match a with
             | LoadModelAction m _ _ => Some m
             | AnimateAction _ _ _ _ _ _ => None
             end) acts.

(** Consistency of the scene graph with the model cache: the scene holds no
    object twice, every child is allocated, every model in the scene is the
    one cached under its key, and every cached model is in the scene. *)
Record scene_ok (w : World) : Prop := mkSceneOk {
  ok_nodup : NoDup (children w);
  ok_alloc : ∀ id, id ∈ children w → id < length (heap w);
  ok_cached : ∀ id o k,
    id ∈ children w → heap w !! id = Some o → source o = Some k →
    models w !! k = Some id;
  ok_shown : ∀ k id,
    models w !! k = Some id →
    id ∈ children w ∧ ∃ o, heap w !! id = Some o ∧ source o = Some k
}.

(** An action whose animation target is not in the model cache. *)
Definition missing_target (a : Action) (w : World) : Prop :=
  match a with
  | AnimateAction _ object _ _ _ _ => models w !! object = None
  | LoadModelAction _ _ _ => False
  end.

(** ** Worlds reached by the steps of a turn *)

(** The world after the success callback of a request for [modelName]. *)
Definition loaded (modelName : string) (position : Vec3) (scale : Q) (w : World) : World :=
  set_models (λ m, <[modelName := length (heap w)]> m)
    (scene_add (length (heap w))
       (set_heap (λ h, h ++ [mkObject (Some modelName) position (mkVec3 scale scale scale)
                                 (bool_decide (modelName = "sun"))])
          (set_requests S w))).

(** The world [clearScene] leaves: the cached models are out of the scene
    graph, the cache and the animations are empty. *)
Definition cleared (w : World) : World :=
  set_animations (λ _, [])
    (set_models (λ _, ∅)
       (set_children (filter (λ c, c ∉ (map_to_list (models w)).*2)) w)).

(** The world after the narration of a reply is written to the chat and
    handed to the voice, and after its quiz, if any, is displayed. *)
Definition narrate (text : string) (w : World) : World :=
  (VoiceSystem.speak text (set_chat (λ l, l ++ [mkChat "AI Teacher" text "ai"]) w)).2.

Definition show_quiz (q : option Quiz) (w : World) : World :=
  match q with
  | Some q => set_currentQuiz (Some q) w
  | None => w
  end.

(** The world in which the executor starts when [topicId], with display name
    [topicName] and introduction [text], is switched to. *)
Definition switched (topicId topicName text : string) (w : World) : World :=
  narrate text
    (set_chat (λ l, l ++ [mkChat "AI Teacher" ("Loading " +:+ topicName +:+ " lesson...") "ai"])
       (cleared (set_currentTopic (Some topicId) w))).

(** Every model key the [explain] template of [t] loads has an asset. *)
Definition explain_keys_available (t : Topic) : bool :=
  match responses t !! "explain" with
  | Some r => bool_decide (Forall (λ k, is_Some (availableModels !! k)) (load_keys (actions r)))
  | None => true
  end.

(** ** One iteration of the executor, case by case *)

(** [action_step fetch a w w']: running the loop body on [a] in [w] leaves
    [w'].  One constructor per path through [loadModel], the [switch] and the
    [catch] clause. *)
Inductive action_step (fetch : nat → string → bool) : Action → World → World → Prop :=
| step_cached m p s w id :
    models w !! m = Some id →
    action_step fetch (LoadModelAction m p s) w w
| step_unavailable m p s w :
    models w !! m = None → availableModels !! m = None →
    action_step fetch (LoadModelAction m p s) w
      (set_console (λ l, l ++ [ErrorExecutingAction "loadModel" (ModelNotAvailable m)]) w)
| step_failed m p s w url :
    models w !! m = None → availableModels !! m = Some url →
    fetch (requests w) url = false →
    action_step fetch (LoadModelAction m p s) w
      (set_console (λ l, l ++ [ErrorExecutingAction "loadModel" (LoaderError url)])
         (set_console (λ l, l ++ [ErrorLoadingModel (LoaderError url)])
            (set_requests S w)))
| step_loaded m p s w url :
    models w !! m = None → availableModels !! m = Some url →
    fetch (requests w) url = true →
    action_step fetch (LoadModelAction m p s) w
      (loaded m (obj_or p origin) (num_or s 1%Q) w)
| step_missing an obj c sp r i w :
    models w !! obj = None →
    action_step fetch (AnimateAction an obj c sp r i) w w
| step_unknown an obj c sp r i w id :
    models w !! obj = Some id →
    an ≠ "orbit" → an ≠ "beat" → an ≠ "pulse" →
    action_step fetch (AnimateAction an obj c sp r i) w w
| step_orbit obj c sp r i w id :
    models w !! obj = Some id →
    action_step fetch (AnimateAction "orbit" obj c sp r i) w
      (set_animations
         (λ l, l ++ [OrbitAnimation id (obj_or c origin) 0 (num_or r 3%Q) (num_or sp 0.01%Q)])
         w)
| step_beat obj c sp r i w id o :
    models w !! obj = Some id → heap w !! id = Some o →
    action_step fetch (AnimateAction "beat" obj c sp r i) w
      (set_animations
         (λ l, l ++ [BeatingAnimation id (obj_scale o) 0 (num_or sp 0.1%Q) (num_or i 0.1%Q)])
         w)
| step_pulse obj c sp r i w id o :
    models w !! obj = Some id → heap w !! id = Some o →
    action_step fetch (AnimateAction "pulse" obj c sp r i) w
      (set_animations
         (λ l, l ++ [BeatingAnimation id (obj_scale o) 0 (num_or sp 0.2%Q) (num_or i 0.05%Q)])
         w)
| step_dangling an obj c sp r i w id :
    models w !! obj = Some id → heap w !! id = None →
    an = "beat" ∨ an = "pulse" →
    action_step fetch (AnimateAction an obj c sp r i) w
      (set_console
         (λ l, l ++ [ErrorExecutingAction "animate"
                       (TypeError "Cannot read properties of undefined (reading 'scale')")])
         w).

(** The object an animation drives. *)
Definition anim_target (a : Animation) : nat :=
  match a with
  | OrbitAnimation object _ _ _ _ => object
  | BeatingAnimation object _ _ _ _ => object
  end.

(** Every registered animation drives a model of the cache. *)
Definition animations_ok (w : World) : Prop :=
  ∀ a, a ∈ animations w → ∃ k, models w !! k = Some (anim_target a).

(** [w'] differs from [w] by what the executor may do: objects, children,
    animations and console lines are appended, the cache grows, requests are
    issued; the chat, the voice, the quiz and the topic are those of [w]. *)
Record extends (w w' : World) : Prop := mkExtends {
  ext_heap : heap w `prefix_of` heap w';
  ext_children : children w `prefix_of` children w';
  ext_models : models w ⊆ models w';
  ext_animations : animations w `prefix_of` animations w';
  ext_console : console w `prefix_of` console w';
  ext_requests : (requests w ≤ requests w')%nat;
  ext_voice : isVoiceEnabled w' = isVoiceEnabled w;
  ext_utterances : utterances w' = utterances w;
  ext_quiz : currentQuiz w' = currentQuiz w;
  ext_topic : currentTopic w' = currentTopic w;
  ext_chat : chat w' = chat w
}.

(** The console lines a load leaves: the loader's own and the executor's
    for the action type ['loadModel']. *)
Definition is_load_line (entry : LogEntry) : Prop :=
  match entry with
  | ErrorLoadingModel _ => True
  | ErrorExecutingAction type _ => type = "loadModel"
  | ErrorLoadingTopic _ | ErrorProcessingQuery _ => False
  end.

(** Whether the quiz engine judges [option] correct in [w]. *)
Definition judged_correct (option : string) (w : World) : bool :=
  match (QuizEngine.checkAnswer option w).1 with
  | Normal (Some result) => QuizEngine.isCorrect result
  | Normal None | Throw _ => false
  end.

(** The quizzes of the templates of a registry. *)
Definition registry_quiz (registry : gmap string Topic) (q : Quiz) : Prop :=
  ∃ topicId t i r,
    registry !! topicId = Some t ∧ responses t !! i = Some r ∧ quiz r = Some q.

(** The options of a template's quiz, if any, are pairwise distinct. *)
Definition quiz_options_distinct (r : ResponseTemplate) : bool :=
  match quiz r with
  | Some q => bool_decide (NoDup (options q))
  | None => true
  end.

(** The scene children that are not models. *)
Definition fixtures (w : World) : list nat :=
  filter (λ id, (heap w !! id) ≫= source = None) (children w).

(** ** Histories *)

(** What the user can do: pick a topic or submit a (trimmed) text. *)
Inductive Event :=
| SwitchTopic (topicId : string)
| UserInput (text : string).

Definition turn (fetch : nat → string → bool) (registry : gmap string Topic)
    (e : Event) : M unit :=
  match e with
  | SwitchTopic topicId => loadTopic fetch registry topicId
  | UserInput text => handleUserInput fetch registry text
  end.

(** The turns of a history, one after the other, each with its requests
    answered before the next starts. *)
Definition run (fetch : nat → string → bool) (registry : gmap string Topic)
    (history : list Event) (w : World) : World :=
  foldl (λ w e, (turn fetch registry e w).2) w history.

(** The property names every JavaScript object inherits.  Looked up in a
    dictionary object, such a name finds the inherited member; the finite
    maps used here for dictionaries have no such entries, so statements
    about what happens for an arbitrary topic id exclude these names. *)
Definition inherited_key (k : string) : bool :=
  bool_decide (k ∈ [ "constructor"; "hasOwnProperty"; "isPrototypeOf";
                     "propertyIsEnumerable"; "toLocaleString"; "toString"; "valueOf";
                     "__proto__"; "__defineGetter__"; "__defineSetter__";
                     "__lookupGetter__"; "__lookupSetter__" ]).

Definition own_topic (current : option string) : Prop :=
  match current with
  | Some k => inherited_key k = false
  | None => True
  end.

Definition own_topics (history : list Event) : Prop :=
  Forall (λ e, match e with
               | SwitchTopic k => inherited_key k = false
               | UserInput _ => True
               end) history.

(** The dictionary key an action looks up: the model it loads or the
    object it animates. *)
Definition action_key (a : Action) : string :=
  match a with
  | LoadModelAction model _ _ => model
  | AnimateAction _ object _ _ _ _ => object
  end.

(** Actions, and registries whose templates hold only actions, whose key
    is not the name of an inherited property. *)
Definition own_action (a : Action) : Prop := inherited_key (action_key a) = false.

Definition own_registry (registry : gmap string Topic) : Prop :=
  ∀ topicId t i r,
    registry !! topicId = Some t → responses t !! i = Some r →
    Forall own_action (actions r).

Definition own_template (r : ResponseTemplate) : bool :=
  forallb (λ a, negb (inherited_key (action_key a))) (actions r).

(** A decimal literal whose double is not zero.  A literal is read as the
    double nearest to it, ties to even; the least positive double is
    [2^-1074], so the literals read as [0] are those of magnitude at most
    [2^-1075]. *)
Definition reads_nonzero (x : Q) : Prop := (1 # (2 ^ 1075)%positive < Qabs x)%Q.

(** ** The event loop *)

(** The turns above let an asset request and its callback happen in one
    step.  In the browser they are apart: [loadModel] hands the request to
    the loader and the executor is suspended on the promise; the
    [loadTopic] or [handleUserInput] call that started the executor goes on
    and returns; the loader's callback is a task of its own, run by the
    event loop at some later time, and other tasks (a click on a topic
    button, a text sent) can run before it.  This module keeps the requests
    in flight next to the world and makes the callbacks tasks. *)
Module EventLoop.

(** A request in flight: its number, the variables the loader callbacks
    close over (the model key, the asset, the position and the scale given
    to [loadModel]) and the executor suspended on the promise, that is, the
    actions that are still to run. *)
Record Request := mkRequest {
  rq_number : nat;
  rq_model : string;
  rq_url : string;
  rq_position : Vec3;
  rq_scale : Q;
  rq_rest : list Action
}.

(** The asset the loop body asks the loader for on [action] in [w], if it
    does: the action loads a model that is not cached and has an asset. *)
Definition requested (action : Action) (w : World) : option string :=
  match action with
  | LoadModelAction model _ _ =>
    match models w !! model with
    | Some _ => None
    | None => availableModels !! model
    end
  | AnimateAction _ _ _ _ _ _ => None
  end.

(** The loader outcome given to an iteration that asks the loader for
    nothing; it is not consulted there. *)
Definition unasked : nat → string → bool := λ _ _, false.

(** [executeSceneActions] up to the first [await] on a request handed to
    the loader: the world at that point and the request, or the world the
    finished loop leaves.  Iterations that hand nothing to the loader (an
    animation, a cached model, a key without asset) settle at once. *)
Fixpoint advance (actions : list Action) (w : World) : World * option Request :=
  match actions with
  | [] => (w, None)
  | action :: rest =>
    match action, requested action w with
    | LoadModelAction model position scale, Some url =>
      (set_requests S w,
       Some (mkRequest (requests w) model url (obj_or position origin) (num_or scale 1%Q) rest))
    | _, _ => advance rest (tryAction unasked action w).2
    end
  end.

(** The success callback passed to [GLTFLoader.load] (l.110-126). *)
Definition onLoad (r : Request) : M unit :=
  model ← new_object
    (mkObject (Some (rq_model r)) (rq_position r)
       (mkVec3 (rq_scale r) (rq_scale r) (rq_scale r))
       (bool_decide (rq_model r = "sun")));
  modify (scene_add model);;
  modify (set_models (λ m, <[rq_model r := model]> m)).

(** The error callback (l.128-131), followed by the [catch] clause of the
    executor, which the rejection reaches. *)
Definition onError (r : Request) : M unit :=
  console_error (ErrorLoadingModel (LoaderError (rq_url r)));;
  console_error (ErrorExecutingAction "loadModel" (LoaderError (rq_url r))).

(** The loader answers [r]: its callback runs, the promise settles and the
    suspended executor goes on to its next suspension or to its end. *)
Definition settle (ok : bool) (r : Request) (w : World) : World * option Request :=
  advance (rq_rest r) ((if ok then onLoad r else onError r) w).2.

(** The un-awaited call [this.executeSceneActions(actions)]: it returns
    when the executor is first suspended on the loader (or has finished). *)
Definition launch (actions : list Action) : M (option Request) := λ w,
  (Normal (advance actions w).2, (advance actions w).1).

(** [handleAIResponse], [loadTopic] and [handleUserInput] as they run within
    one task; the value returned is the request the executor they started
    is left waiting for.  [displayQuiz] writes the quiz engine only, so its
    place relative to the iterations that settle at once is immaterial. *)
Definition handleAIResponse (reply : option ResponseBundle) : M (option Request) :=
  match reply with
  | None => mret None
  | Some r =>
    addChatMessage "AI Teacher" (narration (response r)) "ai";;
    VoiceSystem.speak (narration (response r));;
    pending ← launch (actions (response r));
    match quiz (response r) with
    | Some q => displayQuiz q
    | None => mret tt
    end;;
    mret pending
  end.

Definition loadTopic (registry : gmap string Topic) (topicId : string)
  : M (option Request) :=
  modify (set_currentTopic (Some topicId));;
  clearScene;;
  topicData ← match registry !! topicId with
              | Some t => mret t
              | None => throw (TypeError "Cannot read properties of undefined (reading 'name')")
              end;
  addChatMessage "AI Teacher" ("Loading " +:+ name topicData +:+ " lesson...") "ai";;
  try_catch
    (handleAIResponse (processQuery registry topicId "explain"))
    (λ error,
       console_error (ErrorLoadingTopic error);;
       addChatMessage "AI Teacher" "Sorry, I encountered an error loading this topic." "ai";;
       mret None).

Definition handleUserInput (registry : gmap string Topic) (userInput : string)
  : M (option Request) :=
  if decide (userInput = "") then mret None
  else
    addChatMessage "You" userInput "user";;
    current ← gets currentTopic;
    try_catch
      (handleAIResponse (processQuery registry (default "null" current) userInput))
      (λ error,
         console_error (ErrorProcessingQuery error);;
         addChatMessage "AI Teacher" "Sorry, I encountered an error processing your request." "ai";;
         mret None).

(** The application between two tasks: the world and the requests the
    loader has not answered yet, oldest first. *)
Record Loop := mkLoop {
  world : World;
  inflight : list Request
}.

(** The tasks: a click on a topic button, a text sent from the input box,
    and the loader answering the [i]-th request in flight, with success or
    with an error. *)
Inductive Task :=
| Click (topicId : string)
| Send (text : string)
| Answer (i : nat) (ok : bool).

Definition pending_of (c : Completion (option Request)) : list Request :=
  match c with
  | Normal (Some r) => [r]
  | Normal None | Throw _ => []
  end.

Definition step (registry : gmap string Topic) (task : Task) (l : Loop) : Loop :=
  match task with
  | Click topicId =>
    let res := loadTopic registry topicId (world l) in
    mkLoop res.2 (inflight l ++ pending_of res.1)
  | Send text =>
    let res := handleUserInput registry text (world l) in
    mkLoop res.2 (inflight l ++ pending_of res.1)
  | Answer i ok =>
    match inflight l !! i with
    | None => l
    | Some r =>
      let res := settle ok r (world l) in
      mkLoop res.1 (delete i (inflight l) ++ pending_of (Normal res.2))
    end
  end.

Definition run (registry : gmap string Topic) (tasks : list Task) (l : Loop) : Loop :=
  foldl (λ l task, step registry task l) l tasks.

(** The application after [init], before any task. *)
Definition start : Loop := mkLoop init [].

(** A schedule in which the user waits: every click and every text comes
    when no request is in flight. *)
Fixpoint patient (registry : gmap string Topic) (tasks : list Task) (l : Loop) : Prop :=
  match tasks with
  | [] => True
  | task :: rest =>
    match task with
    | Click _ | Send _ => inflight l = []
    | Answer _ _ => True
    end ∧ patient registry rest (step registry task l)
  end.

(** At most one request is in flight, for a model that is not cached. *)
Definition orderly (l : Loop) : Prop :=
  match inflight l with
  | [] => True
  | [r] => models (world l) !! rq_model r = None
  | _ :: _ :: _ => False
  end.

(** The loader answers the request the executor waits for, and those that
    follow, with the outcomes [fetch] gives; [fuel] bounds the number of
    answers. *)
Fixpoint serve (fetch : nat → string → bool) (fuel : nat)
    (st : World * option Request) : World :=
  match st.2, fuel with
  | Some r, S fuel => serve fetch fuel (settle (fetch (rq_number r) (rq_url r)) r st.1)
  | _, _ => st.1
  end.

End EventLoop.

(** Unfolding of the monad operations. *)
Ltac run_m :=
  unfold mbind, M_bind, mret, M_ret, gets, modify, throw, console_error, detached;
  simpl.

(** * Properties *)

(** ** Intent resolution *)

Lemma append_cons (c : ascii) (s t : string) : String c s +:+ t = String c (s +:+ t).
Proof. reflexivity. Qed.

Lemma startsWith_app (needle s : string) :
  startsWith needle s = true ↔ ∃ post, s = needle +:+ post.
Proof.
  revert s. induction needle as [|a n IH]; intros s; simpl.
  - split; [intros _; by exists s | done].
  - destruct s as [|b s].
    + split; [done | intros [post Hp]; discriminate].
    + destruct (decide (a = b)) as [->|Hne].
      * rewrite IH. split; intros [post Hp]; exists post;
          rewrite append_cons in *; congruence.
      * split; [done | intros [post Hp]; rewrite append_cons in Hp; congruence].
Qed.

(** [includes] decides the occurrence of [needle] as a substring. *)
Lemma includes_substring (s needle : string) :
  includes s needle = true ↔ ∃ pre post, s = pre +:+ needle +:+ post.
Proof.
  induction s as [|c s IH]; simpl.
  - rewrite orb_false_r, startsWith_app. split.
    + intros [post Hp]. by exists "", post.
    + intros [pre [post Hp]]. destruct pre; [by exists post | discriminate].
  - rewrite orb_true_iff, startsWith_app, IH. split.
    + intros [[post Hp] | [pre [post Hp]]].
      * by exists "", post.
      * exists (String c pre), post. rewrite append_cons. by rewrite Hp.
    + intros [pre [post Hp]]. destruct pre as [|c' pre].
      * left. by exists post.
      * right. exists pre, post. rewrite append_cons in Hp. congruence.
Qed.

Lemma lower_ascii_idemp (c : ascii) : lower_ascii (lower_ascii c) = lower_ascii c.
Proof. destruct c as [[] [] [] [] [] [] [] []]; reflexivity. Qed.

Lemma toLowerCase_idemp (s : string) : toLowerCase (toLowerCase s) = toLowerCase s.
Proof. induction s as [|c s IH]; simpl; [done|]. by rewrite lower_ascii_idemp, IH. Qed.

Lemma toLowerCase_append (s t : string) :
  toLowerCase (s +:+ t) = toLowerCase s +:+ toLowerCase t.
Proof.
  induction s as [|c s IH]; [done|].
  rewrite append_cons. simpl. by rewrite IH, append_cons.
Qed.

(** C3: the intent detection of [processQuery] is the first-match
    evaluation of the four keyword rules on the lower-cased query, with
    [unknown] when none matches; it sends "Can you explain this?" to
    [explain] and "what about the scale" to [scale] in solar-system, while
    "scale" in heart-anatomy resolves to [unknown] and [processQuery]
    answers it with the topic's [explain] template.  The two operations the
    rules are built from are what their names say: lower-casing maps the
    twenty-six capital letters to the small ones and leaves the other
    characters alone (those next to the letters in the character table
    included), and a keyword is contained in a query exactly when the query
    is some text, the keyword, and some text; so a keyword is found in
    whatever case it is written, and a gated keyword written in capitals is
    still gated. *)
Theorem intent_resolution_rules :
  (∀ topicId rawQuery, detectIntent topicId rawQuery = resolve topicId rawQuery) ∧
  detectIntent "solar-system" "Can you explain this?" = "explain" ∧
  detectIntent "solar-system" "what about the scale" = "scale" ∧
  detectIntent "heart-anatomy" "scale" = "unknown" ∧
  processQuery topics "heart-anatomy" "scale" =
    (mkBundle "heart-anatomy" "explain" <$> responses heart_anatomy !! "explain") ∧
  is_Some (responses heart_anatomy !! "explain") ∧
  toLowerCase "ABCDEFGHIJKLMNOPQRSTUVWXYZ" = "abcdefghijklmnopqrstuvwxyz" ∧
  toLowerCase "abcdefghijklmnopqrstuvwxyz 0123456789 @[`{ !?.,-_'" =
    "abcdefghijklmnopqrstuvwxyz 0123456789 @[`{ !?.,-_'" ∧
  (∀ s needle, includes s needle = true ↔ ∃ pre post, s = pre +:+ needle +:+ post) ∧
  (∀ topicId pre word post,
     toLowerCase word = "explain" →
     detectIntent topicId (pre +:+ word +:+ post) = "explain") ∧
  detectIntent "solar-system" "Please EXPLAIN" = "explain" ∧
  detectIntent "volcano" "Can You Explain This?" = "explain" ∧
  detectIntent "solar-system" "What about the SCALE?" = "scale" ∧
  detectIntent "heart-anatomy" "Its Function" = "function" ∧
  detectIntent "volcano" "The last ERUPTION" = "eruption" ∧
  detectIntent "volcano" "The SCALE of it" = "unknown" ∧
  detectIntent "solar-system" "EXPLAIN the SCALE" = "explain".
Proof.
  split; [|repeat split; try by vm_compute].
  - intros topicId rawQuery. unfold detectIntent, resolve, rules. simpl.
    unfold rule_matches. simpl. rewrite andb_true_r.
    repeat (destruct (includes _ _); simpl; try done;
            try (case_bool_decide; simpl; try done)).
  - vm_compute; eauto.
  - by intros H%includes_substring.
  - by intros H%includes_substring.
  - intros topicId pre word post Hword.
    assert (Hin : includes (toLowerCase (pre +:+ word +:+ post)) "explain" = true).
    { apply includes_substring.
      exists (toLowerCase pre), (toLowerCase post).
      by rewrite !toLowerCase_append, Hword. }
    unfold detectIntent. by rewrite Hin.
Qed.

(** "unEXPLAINed" holds the keyword, in capitals, between "un" and "ed". *)
Lemma intent_resolution_rules_witness :
  includes "unexplained" "explain" = true ∧
  detectIntent "heart-anatomy" "unEXPLAINed" = "explain".
Proof.
  destruct intent_resolution_rules
    as (_ & _ & _ & _ & _ & _ & _ & _ & Hincludes & Hany & _).
  split.
  - apply Hincludes. by exists "un", "ed".
  - apply (Hany "heart-anatomy" "un" "EXPLAIN" "ed"). reflexivity.
Defined.

(** ** Template fallback *)

(** C5: for a registered topic, when the detected intent has no template in
    the topic's response map, [processQuery] answers with the topic's
    [explain] template under the intent [explain]; when the topic has no
    [explain] template either it answers with the synthetic fallback, whose
    narration is fixed, whose action list is empty and which carries no quiz.
    In both cases a bundle is returned, never [null]. *)
Theorem unmapped_intent_falls_back (registry : gmap string Topic)
    (topicId query : string) (topicData : Topic) :
  registry !! topicId = Some topicData →
  responses topicData !! detectIntent topicId query = None →
  (∀ r, responses topicData !! "explain" = Some r →
        processQuery registry topicId query = Some (mkBundle topicId "explain" r)) ∧
  (responses topicData !! "explain" = None →
        processQuery registry topicId query =
          Some (mkBundle topicId "explain" fallbackResponse)) ∧
  fallbackResponse =
    mkResponse "I'm not sure how to answer that. Try asking me to explain this topic."
      [] None ∧
  is_Some (processQuery registry topicId query).
Proof.
  intros Htopic Hintent. unfold processQuery. rewrite Htopic, Hintent.
  repeat split; eauto.
  - intros r Hr. by rewrite Hr.
  - intros Hr. by rewrite Hr.
Qed.

(** The fallback at work: "scale" asked in heart-anatomy, and any query in a
    registry whose only topic has no template at all. *)
Lemma unmapped_intent_falls_back_witness :
  processQuery topics "heart-anatomy" "scale" =
    (mkBundle "heart-anatomy" "explain" <$> responses heart_anatomy !! "explain") ∧
  processQuery {[ "moon" := mkTopic "Moon" "" ∅ ]} "moon" "hello" =
    Some (mkBundle "moon" "explain" fallbackResponse).
Proof.
  split.
  - destruct (responses heart_anatomy !! "explain") as [r|] eqn:Hr; [|by vm_compute in Hr].
    apply (unmapped_intent_falls_back topics "heart-anatomy" "scale" heart_anatomy);
      [by vm_compute | by vm_compute | exact Hr].
  - apply (unmapped_intent_falls_back {[ "moon" := mkTopic "Moon" "" ∅ ]}
             "moon" "hello" (mkTopic "Moon" "" ∅));
      by vm_compute.
Defined.

(** ** Registry data *)

Lemma registry_quizzes_checked :
  map_Forall (λ _ t, map_Forall (λ _ r, quiz_answer_listed r = true) (responses t)) topics.
Proof. apply (bool_decide_unpack _). by vm_compute. Qed.

(** C8: every quiz of the registry lists its correct answer among its
    options. *)
Theorem quiz_answer_among_options (topicId intentKey : string)
    (t : Topic) (r : ResponseTemplate) (q : Quiz) :
  topics !! topicId = Some t →
  responses t !! intentKey = Some r →
  quiz r = Some q →
  correctAnswer q ∈ options q.
Proof.
  intros Ht Hr Hq.
  pose proof (registry_quizzes_checked topicId t Ht intentKey r Hr) as H.
  unfold quiz_answer_listed in H. rewrite Hq in H.
  by apply bool_decide_eq_true in H.
Qed.

Lemma quiz_answer_among_options_witness :
  "Gravity" ∈ [ "Electromagnetic forces"; "Gravity"; "Solar wind"; "Centrifugal force" ].
Proof.
  destruct (responses solar_system !! "explain") as [r|] eqn:Hr; [|by vm_compute in Hr].
  destruct (quiz r) as [q|] eqn:Hq.
  - pose proof (quiz_answer_among_options "solar-system" "explain" solar_system r q
                  ltac:(by vm_compute) Hr Hq) as H.
    vm_compute in Hr. injection Hr as <-. vm_compute in Hq. injection Hq as <-.
    exact H.
  - vm_compute in Hr. injection Hr as <-. by vm_compute in Hq.
Defined.

(** ** The asset loader *)

Section LoaderFacts.

Variable fetch : nat → string → bool.

Lemma loadModel_cached modelName position scale w model :
  models w !! modelName = Some model →
  loadModel fetch modelName position scale w = (Normal model, w).
Proof. intros H. unfold loadModel. run_m. by rewrite H. Qed.

Lemma loadModel_unavailable modelName position scale w :
  models w !! modelName = None →
  availableModels !! modelName = None →
  loadModel fetch modelName position scale w = (Throw (ModelNotAvailable modelName), w).
Proof. intros H1 H2. unfold loadModel. run_m. by rewrite H1, H2. Qed.

Lemma loadModel_failed modelName position scale w url :
  models w !! modelName = None →
  availableModels !! modelName = Some url →
  fetch (requests w) url = false →
  loadModel fetch modelName position scale w =
    (Throw (LoaderError url),
     set_console (λ l, l ++ [ErrorLoadingModel (LoaderError url)]) (set_requests S w)).
Proof. intros H1 H2 H3. unfold loadModel. run_m. by rewrite H1, H2, H3. Qed.

Lemma loadModel_loaded modelName position scale w url :
  models w !! modelName = None →
  availableModels !! modelName = Some url →
  fetch (requests w) url = true →
  loadModel fetch modelName position scale w =
    (Normal (length (heap w)),
     loaded modelName (default origin position) (default 1%Q scale) w).
Proof. intros H1 H2 H3. unfold loadModel. run_m. by rewrite H1, H2, H3. Qed.

End LoaderFacts.

(** ** The action executor *)

Section ExecutorFacts.

Variable fetch : nat → string → bool.

Lemma tryAction_normal a w : (tryAction fetch a w).1 = Normal tt.
Proof.
  unfold tryAction, try_catch.
  destruct (executeAction fetch a w) as [[[]|e] w']; reflexivity.
Qed.

Lemma tryAction_caught a w e w' :
  executeAction fetch a w = (Throw e, w') →
  tryAction fetch a w =
    (Normal tt, set_console (λ l, l ++ [ErrorExecutingAction (action_type a) e]) w').
Proof. intros H. unfold tryAction, try_catch. by rewrite H. Qed.

Lemma tryAction_passed a w w' :
  executeAction fetch a w = (Normal tt, w') →
  tryAction fetch a w = (Normal tt, w').
Proof. intros H. unfold tryAction, try_catch. by rewrite H. Qed.

Lemma executeSceneActions_cons a rest w :
  executeSceneActions fetch (a :: rest) w =
  executeSceneActions fetch rest (tryAction fetch a w).2.
Proof.
  simpl. unfold mbind, M_bind.
  pose proof (tryAction_normal a w) as H.
  destruct (tryAction fetch a w) as [[[]|e] w']; [reflexivity | discriminate].
Qed.

Lemma executeSceneActions_app l1 l2 w :
  executeSceneActions fetch (l1 ++ l2) w =
  executeSceneActions fetch l2 (executeSceneActions fetch l1 w).2.
Proof.
  revert w. induction l1 as [|a l1 IH]; intros w; [reflexivity|].
  rewrite <- app_comm_cons, !executeSceneActions_cons. apply IH.
Qed.

Lemma executeSceneActions_normal acts w :
  (executeSceneActions fetch acts w).1 = Normal tt.
Proof.
  revert w. induction acts as [|a acts IH]; intros w; [reflexivity|].
  rewrite executeSceneActions_cons. apply IH.
Qed.

Lemma executeAction_load_cached modelName position scale w model :
  models w !! modelName = Some model →
  executeAction fetch (LoadModelAction modelName position scale) w = (Normal tt, w).
Proof.
  intros H. simpl. unfold mbind, M_bind.
  by rewrite (loadModel_cached fetch _ _ _ _ _ H).
Qed.

Lemma executeAction_load_unavailable modelName position scale w :
  models w !! modelName = None →
  availableModels !! modelName = None →
  executeAction fetch (LoadModelAction modelName position scale) w =
    (Throw (ModelNotAvailable modelName), w).
Proof.
  intros H1 H2. simpl. unfold mbind, M_bind.
  by rewrite (loadModel_unavailable fetch _ _ _ _ H1 H2).
Qed.

Lemma executeAction_load_failed modelName position scale w url :
  models w !! modelName = None →
  availableModels !! modelName = Some url →
  fetch (requests w) url = false →
  executeAction fetch (LoadModelAction modelName position scale) w =
    (Throw (LoaderError url),
     set_console (λ l, l ++ [ErrorLoadingModel (LoaderError url)]) (set_requests S w)).
Proof.
  intros H1 H2 H3. simpl. unfold mbind, M_bind.
  by rewrite (loadModel_failed fetch _ _ _ _ _ H1 H2 H3).
Qed.

Lemma executeAction_load_loaded modelName position scale w url :
  models w !! modelName = None →
  availableModels !! modelName = Some url →
  fetch (requests w) url = true →
  executeAction fetch (LoadModelAction modelName position scale) w =
    (Normal tt, loaded modelName (obj_or position origin) (num_or scale 1%Q) w).
Proof.
  intros H1 H2 H3. simpl. unfold mbind, M_bind.
  by rewrite (loadModel_loaded fetch _ _ _ _ _ H1 H2 H3).
Qed.

Lemma executeAction_missing_target a w :
  missing_target a w → executeAction fetch a w = (Normal tt, w).
Proof.
  destruct a as [m p s | an obj c sp r i]; simpl; [done|].
  intros H. run_m. by rewrite H.
Qed.

Lemma executeAction_orbit object center speed radius intensity w model :
  models w !! object = Some model →
  executeAction fetch (AnimateAction "orbit" object center speed radius intensity) w =
    (Normal tt,
     set_animations
       (λ l, l ++ [OrbitAnimation model (obj_or center origin) 0
                     (num_or radius 3%Q) (num_or speed 0.01%Q)]) w).
Proof. intros H. simpl. run_m. by rewrite H. Qed.

Lemma executeAction_beat object center speed radius intensity w model o :
  models w !! object = Some model →
  heap w !! model = Some o →
  executeAction fetch (AnimateAction "beat" object center speed radius intensity) w =
    (Normal tt,
     set_animations
       (λ l, l ++ [BeatingAnimation model (obj_scale o) 0
                     (num_or speed 0.1%Q) (num_or intensity 0.1%Q)]) w).
Proof.
  intros H1 H2. simpl. run_m. rewrite H1. simpl.
  unfold createBeatingAnimation. run_m. by rewrite H2.
Qed.

Lemma executeAction_pulse object center speed radius intensity w model o :
  models w !! object = Some model →
  heap w !! model = Some o →
  executeAction fetch (AnimateAction "pulse" object center speed radius intensity) w =
    (Normal tt,
     set_animations
       (λ l, l ++ [BeatingAnimation model (obj_scale o) 0
                     (num_or speed 0.2%Q) (num_or intensity 0.05%Q)]) w).
Proof.
  intros H1 H2. simpl. run_m. rewrite H1. simpl.
  unfold createBeatingAnimation. run_m. by rewrite H2.
Qed.

End ExecutorFacts.

(** ** Failure containment *)

(** C1, as stated, fails: an animation whose target is missing is an action
    failure that leaves no trace in the console.  On the freshly initialised
    scene "earth" is not loaded; animating it completes normally and the
    console is as empty afterwards as it was before. *)
Lemma missing_target_not_logged :
  missing_target (AnimateAction "orbit" "earth" None None None None) init ∧
  (executeSceneActions (λ _ _, true)
     [AnimateAction "orbit" "earth" None None None None] init).1 = Normal tt ∧
  console (executeSceneActions (λ _ _, true)
     [AnimateAction "orbit" "earth" None None None None] init).2 = [] ∧
  console init = [].
Proof. vm_compute. repeat split; reflexivity. Qed.

(** C1, amended: whatever the actions before it did, every action [a] of
    the list is run, on the world they left, and so are the actions after
    it; the executor always completes normally.  An exception raised by [a]
    is caught and logged with the action's type: this is what happens to a
    load of a model key that is not available and to a load whose asset
    request fails (the latter being logged by the loader as well).  An
    animation whose target is not loaded raises nothing and is skipped
    without a log entry.  The clauses on a key that is not available and on
    a target that is not loaded are for keys that do not name an inherited
    property: looked up in [availableModels] or [models], such a name finds
    the inherited member, and neither clause describes what follows. *)
Theorem executor_contains_failures (fetch : nat → string → bool)
    (pre post : list Action) (a : Action) (w : World) :
  let w1 := (executeSceneActions fetch pre w).2 in
  (executeSceneActions fetch (pre ++ a :: post) w).1 = Normal tt ∧
  executeSceneActions fetch (pre ++ a :: post) w =
    executeSceneActions fetch post (tryAction fetch a w1).2 ∧
  (∀ e w2, executeAction fetch a w1 = (Throw e, w2) →
     tryAction fetch a w1 =
       (Normal tt, set_console (λ l, l ++ [ErrorExecutingAction (action_type a) e]) w2)) ∧
  (∀ m p s, a = LoadModelAction m p s →
     inherited_key m = false →
     models w1 !! m = None → availableModels !! m = None →
     executeAction fetch a w1 = (Throw (ModelNotAvailable m), w1)) ∧
  (∀ m p s url, a = LoadModelAction m p s →
     models w1 !! m = None → availableModels !! m = Some url →
     fetch (requests w1) url = false →
     executeAction fetch a w1 =
       (Throw (LoaderError url),
        set_console (λ l, l ++ [ErrorLoadingModel (LoaderError url)]) (set_requests S w1))) ∧
  (own_action a → missing_target a w1 → tryAction fetch a w1 = (Normal tt, w1)).
Proof.
  intros w1. repeat split.
  - apply executeSceneActions_normal.
  - by rewrite executeSceneActions_app, executeSceneActions_cons.
  - intros e w2. apply tryAction_caught.
  - intros m p s -> _. apply executeAction_load_unavailable.
  - intros m p s url ->. apply executeAction_load_failed.
  - intros _ H. by apply tryAction_passed, executeAction_missing_target.
Qed.

(** The three failures in one run, with every asset request failing: an
    unknown key, a failed request and a missing target, followed by one more
    action. *)
Lemma executor_contains_failures_witness :
  let fetch := λ (_ : nat) (_ : string), false in
  let sun := LoadModelAction "sun" None None in
  let moon := LoadModelAction "moon" None None in
  let spin := AnimateAction "orbit" "sun" None None None None in
  tryAction fetch moon init =
    (Normal tt,
     set_console (λ l, l ++ [ErrorExecutingAction "loadModel" (ModelNotAvailable "moon")]) init) ∧
  (∃ url, executeAction fetch sun init =
     (Throw (LoaderError url),
      set_console (λ l, l ++ [ErrorLoadingModel (LoaderError url)]) (set_requests S init))) ∧
  tryAction fetch spin init = (Normal tt, init) ∧
  (executeSceneActions fetch [moon; sun; spin; moon] init).1 = Normal tt.
Proof.
  intros fetch sun moon spin.
  destruct (executor_contains_failures fetch [] [sun; spin; moon] moon init)
    as (_ & _ & Hcaught & Hunknown & _ & _).
  destruct (executor_contains_failures fetch [] [spin; moon] sun init)
    as (_ & _ & _ & _ & Hfailed & _).
  destruct (executor_contains_failures fetch [] [moon] spin init)
    as (_ & _ & _ & _ & _ & Hmissing).
  destruct (executor_contains_failures fetch [moon; sun; spin] [] moon init)
    as (Hnormal & _).
  split; [|split; [|split]].
  - apply Hcaught. apply (Hunknown "moon" None None); by vm_compute.
  - destruct (availableModels !! "sun") as [url|] eqn:Hurl; [|by vm_compute in Hurl].
    exists url. apply (Hfailed "sun" None None url); [reflexivity | by vm_compute | exact Hurl | reflexivity].
  - apply Hmissing; by vm_compute.
  - exact Hnormal.
Defined.

(** ** Sequencing *)

(** C2: the executor runs the actions in list order, each one on the world
    left by the completed run of those before it.  For a load followed by an
    animation of the same key: when the load succeeds, the animation is
    dispatched with the model in the cache and is registered on the object
    just loaded; when the load fails, the animation is still attempted, finds
    its target absent and the run completes normally, the only trace being
    the logged load failure.  A load fails when the key has no asset or the
    asset request fails; a key that names an inherited property is found in
    the dictionaries, its load does not fail, and the failing case is stated
    for the other keys. *)
Theorem executor_runs_in_order (fetch : nat → string → bool) :
  (∀ l1 l2 w,
     executeSceneActions fetch (l1 ++ l2) w =
     executeSceneActions fetch l2 (executeSceneActions fetch l1 w).2) ∧
  (∀ a rest w,
     executeSceneActions fetch (a :: rest) w =
     executeSceneActions fetch rest (tryAction fetch a w).2) ∧
  (∀ w key position scale center speed radius intensity url,
     models w !! key = None →
     availableModels !! key = Some url →
     fetch (requests w) url = true →
     let w1 := (tryAction fetch (LoadModelAction key position scale) w).2 in
     let w2 := (executeSceneActions fetch
                  [LoadModelAction key position scale;
                   AnimateAction "orbit" key center speed radius intensity] w).2 in
     models w1 !! key = Some (length (heap w)) ∧
     children w1 = children w ++ [length (heap w)] ∧
     animations w1 = animations w ∧
     animations w2 =
       animations w ++ [OrbitAnimation (length (heap w)) (obj_or center origin) 0
                          (num_or radius 3%Q) (num_or speed 0.01%Q)]) ∧
  (∀ w key position scale animation center speed radius intensity,
     inherited_key key = false →
     models w !! key = None →
     (availableModels !! key = None ∨
      ∃ url, availableModels !! key = Some url ∧ fetch (requests w) url = false) →
     let load := LoadModelAction key position scale in
     let anim := AnimateAction animation key center speed radius intensity in
     let w1 := (tryAction fetch load w).2 in
     (∃ e w', executeAction fetch load w = (Throw e, w') ∧
              w1 = set_console (λ l, l ++ [ErrorExecutingAction "loadModel" e]) w') ∧
     missing_target anim w1 ∧
     executeSceneActions fetch [load; anim] w = (Normal tt, w1) ∧
     models w1 = models w ∧ children w1 = children w ∧ animations w1 = animations w).
Proof.
  split; [|split; [|split]].
  - intros. apply executeSceneActions_app.
  - intros. apply executeSceneActions_cons.
  - intros w key position scale center speed radius intensity url Hm Ha Hf w1 w2.
    pose proof (tryAction_passed fetch _ _ _
                  (executeAction_load_loaded fetch key position scale w url Hm Ha Hf)) as H1.
    assert (Hw1 : w1 = loaded key (obj_or position origin) (num_or scale 1%Q) w)
      by (subst w1; by rewrite H1).
    assert (Hk : models w1 !! key = Some (length (heap w)))
      by (rewrite Hw1; simpl; apply lookup_insert_eq).
    repeat split; try (by rewrite Hw1); [done|].
    subst w2. rewrite executeSceneActions_cons. fold w1. simpl.
    unfold mbind, M_bind.
    rewrite (tryAction_passed fetch _ _ _
               (executeAction_orbit fetch key center speed radius intensity w1 _ Hk)).
    simpl. by rewrite Hw1.
  - intros w key position scale animation center speed radius intensity _ Hm Hfail load anim w1.
    assert (Hthrow : ∃ e w', executeAction fetch load w = (Throw e, w') ∧
                       models w' = models w ∧ children w' = children w ∧
                       animations w' = animations w).
    { destruct Hfail as [Ha | (url & Ha & Hf)].
      - eexists _, _. split; [by apply executeAction_load_unavailable | done].
      - eexists _, _. split; [by eapply executeAction_load_failed | done]. }
    destruct Hthrow as (e & w' & He & Hm' & Hc' & Han').
    pose proof (tryAction_caught fetch _ _ _ _ He) as H1.
    assert (Hw1 : w1 = set_console (λ l, l ++ [ErrorExecutingAction "loadModel" e]) w')
      by (subst w1; by rewrite H1).
    assert (Hmiss : missing_target anim w1)
      by (rewrite Hw1; simpl; by rewrite Hm').
    split; [by exists e, w'|]. split; [done|]. split.
    + rewrite executeSceneActions_cons. fold w1. simpl. unfold mbind, M_bind.
      by rewrite (tryAction_passed fetch _ _ _ (executeAction_missing_target fetch anim w1 Hmiss)).
    + by rewrite Hw1.
Qed.

(** A load of "sun" followed by its orbit, on the initial scene: with the
    asset request succeeding, and with it failing. *)
Lemma executor_runs_in_order_witness :
  let acts := [LoadModelAction "sun" None None;
               AnimateAction "orbit" "sun" None None None None] in
  animations (executeSceneActions (λ _ _, true) acts init).2 =
    [OrbitAnimation 2 origin 0 3%Q 0.01%Q] ∧
  animations (executeSceneActions (λ _ _, false) acts init).2 = [].
Proof.
  intros acts.
  destruct (availableModels !! "sun") as [url|] eqn:Hurl; [|by vm_compute in Hurl].
  split.
  - destruct (executor_runs_in_order (λ _ _, true)) as (_ & _ & Hok & _).
    apply (Hok init "sun" None None None None None None url);
      [by vm_compute | exact Hurl | reflexivity].
  - destruct (executor_runs_in_order (λ _ _, false)) as (_ & _ & _ & Hfail).
    destruct (Hfail init "sun" None None "orbit" None None None None)
      as (_ & _ & Hrun & _ & _ & Han).
    + reflexivity.
    + by vm_compute.
    + right. exists url. by split.
    + subst acts. rewrite Hrun. simpl. by rewrite Han.
Defined.

(** ** Defaults of optional action fields *)

Lemma num_or_zero (z dflt : Q) : (z == 0)%Q → num_or (Some z) dflt = num_or None dflt.
Proof.
  intros Hz. unfold num_or, truthy.
  by rewrite (proj2 (Qeq_bool_iff z 0) Hz).
Qed.

(** C6: an omitted optional field of an action behaves as the field given
    with its default (position and centre: the origin; scale 1; orbit speed
    0.01 and radius 3; beat speed 0.1 and intensity 0.1; pulse speed 0.2 and
    intensity 0.05), and with every optional field omitted these are the
    values that reach the scene: the loaded object sits at the origin with
    scale 1 and the registered animations carry the default parameters. *)
Theorem omitted_fields_take_defaults (fetch : nat → string → bool) :
  (∀ w m s, executeAction fetch (LoadModelAction m None s) w =
            executeAction fetch (LoadModelAction m (Some origin) s) w) ∧
  (∀ w m p, executeAction fetch (LoadModelAction m p None) w =
            executeAction fetch (LoadModelAction m p (Some 1%Q)) w) ∧
  (∀ w o sp r i, executeAction fetch (AnimateAction "orbit" o None sp r i) w =
                 executeAction fetch (AnimateAction "orbit" o (Some origin) sp r i) w) ∧
  (∀ w o c r i, executeAction fetch (AnimateAction "orbit" o c None r i) w =
                executeAction fetch (AnimateAction "orbit" o c (Some 0.01%Q) r i) w) ∧
  (∀ w o c sp i, executeAction fetch (AnimateAction "orbit" o c sp None i) w =
                 executeAction fetch (AnimateAction "orbit" o c sp (Some 3%Q) i) w) ∧
  (∀ w o c r i, executeAction fetch (AnimateAction "beat" o c None r i) w =
                executeAction fetch (AnimateAction "beat" o c (Some 0.1%Q) r i) w) ∧
  (∀ w o c sp r, executeAction fetch (AnimateAction "beat" o c sp r None) w =
                 executeAction fetch (AnimateAction "beat" o c sp r (Some 0.1%Q)) w) ∧
  (∀ w o c r i, executeAction fetch (AnimateAction "pulse" o c None r i) w =
                executeAction fetch (AnimateAction "pulse" o c (Some 0.2%Q) r i) w) ∧
  (∀ w o c sp r, executeAction fetch (AnimateAction "pulse" o c sp r None) w =
                 executeAction fetch (AnimateAction "pulse" o c sp r (Some 0.05%Q)) w) ∧
  (∀ w m url,
     models w !! m = None → availableModels !! m = Some url →
     fetch (requests w) url = true →
     heap (executeAction fetch (LoadModelAction m None None) w).2 =
       heap w ++ [mkObject (Some m) origin (mkVec3 1 1 1) (bool_decide (m = "sun"))]) ∧
  (∀ w o model,
     models w !! o = Some model →
     animations (executeAction fetch (AnimateAction "orbit" o None None None None) w).2 =
       animations w ++ [OrbitAnimation model origin 0 3%Q 0.01%Q]) ∧
  (∀ w o model obj,
     models w !! o = Some model → heap w !! model = Some obj →
     animations (executeAction fetch (AnimateAction "beat" o None None None None) w).2 =
       animations w ++ [BeatingAnimation model (obj_scale obj) 0 0.1%Q 0.1%Q]) ∧
  (∀ w o model obj,
     models w !! o = Some model → heap w !! model = Some obj →
     animations (executeAction fetch (AnimateAction "pulse" o None None None None) w).2 =
       animations w ++ [BeatingAnimation model (obj_scale obj) 0 0.2%Q 0.05%Q]).
Proof.
  repeat split; try reflexivity.
  - intros w m url H1 H2 H3. by rewrite (executeAction_load_loaded fetch _ _ _ _ _ H1 H2 H3).
  - intros w o model H. by rewrite (executeAction_orbit fetch _ _ _ _ _ _ _ H).
  - intros w o model obj H1 H2. by rewrite (executeAction_beat fetch _ _ _ _ _ _ _ _ H1 H2).
  - intros w o model obj H1 H2. by rewrite (executeAction_pulse fetch _ _ _ _ _ _ _ _ H1 H2).
Qed.

(** Everything omitted, on the initial scene and on the scene holding the
    heart at its default placement. *)
Lemma omitted_fields_take_defaults_witness :
  let fetch := λ (_ : nat) (_ : string), true in
  let w := loaded "heart" origin 1%Q init in
  heap (executeAction fetch (LoadModelAction "heart" None None) init).2 =
    heap init ++ [mkObject (Some "heart") origin (mkVec3 1 1 1) false] ∧
  animations (executeAction fetch (AnimateAction "orbit" "heart" None None None None) w).2 =
    [OrbitAnimation 2 origin 0 3%Q 0.01%Q] ∧
  animations (executeAction fetch (AnimateAction "beat" "heart" None None None None) w).2 =
    [BeatingAnimation 2 (mkVec3 1 1 1) 0 0.1%Q 0.1%Q] ∧
  animations (executeAction fetch (AnimateAction "pulse" "heart" None None None None) w).2 =
    [BeatingAnimation 2 (mkVec3 1 1 1) 0 0.2%Q 0.05%Q].
Proof.
  intros fetch w.
  destruct (omitted_fields_take_defaults fetch)
    as (_ & _ & _ & _ & _ & _ & _ & _ & _ & Hload & Horbit & Hbeat & Hpulse).
  destruct (availableModels !! "heart") as [url|] eqn:Hurl; [|by vm_compute in Hurl].
  split; [|split; [|split]].
  - apply (Hload init "heart" url); [by vm_compute | exact Hurl | reflexivity].
  - apply (Horbit w "heart" 2). by vm_compute.
  - apply (Hbeat w "heart" 2 (mkObject (Some "heart") origin (mkVec3 1 1 1) false));
      by vm_compute.
  - apply (Hpulse w "heart" 2 (mkObject (Some "heart") origin (mkVec3 1 1 1) false));
      by vm_compute.
Defined.

(** C10: an optional numeric field given as zero is treated by the executor
    exactly as the omitted field, for the scale of a load and for the speed,
    radius and intensity of every animation; so the default is what reaches
    the scene, not zero. *)
Theorem explicit_zero_is_omitted (fetch : nat → string → bool) (z : Q) :
  (z == 0)%Q →
  (∀ w m p, executeAction fetch (LoadModelAction m p (Some z)) w =
            executeAction fetch (LoadModelAction m p None) w) ∧
  (∀ w an o c r i, executeAction fetch (AnimateAction an o c (Some z) r i) w =
                   executeAction fetch (AnimateAction an o c None r i) w) ∧
  (∀ w an o c sp i, executeAction fetch (AnimateAction an o c sp (Some z) i) w =
                    executeAction fetch (AnimateAction an o c sp None i) w) ∧
  (∀ w an o c sp r, executeAction fetch (AnimateAction an o c sp r (Some z)) w =
                    executeAction fetch (AnimateAction an o c sp r None) w) ∧
  (∀ w m url,
     models w !! m = None → availableModels !! m = Some url →
     fetch (requests w) url = true →
     heap (executeAction fetch (LoadModelAction m None (Some z)) w).2 =
       heap w ++ [mkObject (Some m) origin (mkVec3 1 1 1) (bool_decide (m = "sun"))]) ∧
  (∀ w o model,
     models w !! o = Some model →
     animations (executeAction fetch (AnimateAction "orbit" o None (Some z) (Some z) None) w).2 =
       animations w ++ [OrbitAnimation model origin 0 3%Q 0.01%Q]) ∧
  (∀ w o model obj,
     models w !! o = Some model → heap w !! model = Some obj →
     animations (executeAction fetch (AnimateAction "beat" o None (Some z) None (Some z)) w).2 =
       animations w ++ [BeatingAnimation model (obj_scale obj) 0 0.1%Q 0.1%Q]) ∧
  (∀ w o model obj,
     models w !! o = Some model → heap w !! model = Some obj →
     animations (executeAction fetch (AnimateAction "pulse" o None (Some z) None (Some z)) w).2 =
       animations w ++ [BeatingAnimation model (obj_scale obj) 0 0.2%Q 0.05%Q]).
Proof.
  intros Hz.
  assert (Hn : ∀ d, num_or (Some z) d = num_or None d) by (intros d; by apply num_or_zero).
  repeat split.
  - intros w m p. unfold executeAction. by rewrite Hn.
  - intros w an o c r i. unfold executeAction. by rewrite !Hn.
  - intros w an o c sp i. unfold executeAction. by rewrite !Hn.
  - intros w an o c sp r. unfold executeAction. by rewrite !Hn.
  - intros w m url H1 H2 H3.
    rewrite (executeAction_load_loaded fetch _ _ _ _ _ H1 H2 H3). by rewrite Hn.
  - intros w o model H.
    rewrite (executeAction_orbit fetch _ _ _ _ _ _ _ H). by rewrite !Hn.
  - intros w o model obj H1 H2.
    rewrite (executeAction_beat fetch _ _ _ _ _ _ _ _ H1 H2). by rewrite !Hn.
  - intros w o model obj H1 H2.
    rewrite (executeAction_pulse fetch _ _ _ _ _ _ _ _ H1 H2). by rewrite !Hn.
Qed.

(** A heart loaded with scale 0 and animated with speed and intensity 0. *)
Lemma explicit_zero_is_omitted_witness :
  let fetch := λ (_ : nat) (_ : string), true in
  let w := loaded "heart" origin 1%Q init in
  heap (executeAction fetch (LoadModelAction "heart" None (Some 0%Q)) init).2 =
    heap init ++ [mkObject (Some "heart") origin (mkVec3 1 1 1) false] ∧
  animations
    (executeAction fetch (AnimateAction "beat" "heart" None (Some 0%Q) None (Some 0%Q)) w).2 =
    [BeatingAnimation 2 (mkVec3 1 1 1) 0 0.1%Q 0.1%Q] ∧
  executeAction fetch (AnimateAction "orbit" "heart" None None (Some 0%Q) None) w =
    executeAction fetch (AnimateAction "orbit" "heart" None None None None) w.
Proof.
  intros fetch w.
  destruct (explicit_zero_is_omitted fetch 0%Q ltac:(reflexivity))
    as (_ & _ & Hradius & _ & Hload & _ & Hbeat & _).
  destruct (availableModels !! "heart") as [url|] eqn:Hurl; [|by vm_compute in Hurl].
  split; [|split].
  - apply (Hload init "heart" url); [by vm_compute | exact Hurl | reflexivity].
  - apply (Hbeat w "heart" 2 (mkObject (Some "heart") origin (mkVec3 1 1 1) false));
      by vm_compute.
  - apply Hradius.
Defined.

(** ** The model cache *)

Lemma narrate_scene text w :
  heap (narrate text w) = heap w ∧ children (narrate text w) = children w ∧
  models (narrate text w) = models w ∧ animations (narrate text w) = animations w ∧
  requests (narrate text w) = requests w ∧ console (narrate text w) = console w.
Proof.
  unfold narrate, VoiceSystem.speak. run_m.
  by destruct (isVoiceEnabled w).
Qed.

Lemma show_quiz_scene q w :
  heap (show_quiz q w) = heap w ∧ children (show_quiz q w) = children w ∧
  models (show_quiz q w) = models w ∧ animations (show_quiz q w) = animations w ∧
  requests (show_quiz q w) = requests w ∧ console (show_quiz q w) = console w.
Proof. by destruct q. Qed.

Lemma handleAIResponse_bundle fetch b w :
  handleAIResponse fetch (Some b) w =
    (Normal tt,
     show_quiz (quiz (response b))
       (executeSceneActions fetch (actions (response b))
          (narrate (narration (response b)) w)).2).
Proof.
  unfold handleAIResponse, narrate, show_quiz, addChatMessage, VoiceSystem.speak, displayQuiz,
    QuizEngine.createQuiz.
  run_m. destruct (isVoiceEnabled w); simpl; by destruct (quiz (response b)).
Qed.

(** [displayQuiz] runs while the executor is still waiting for its first
    asset; it writes the quiz engine only, which the executor never reads, so
    it makes no difference that the turn is modelled with the executor run
    first. *)
Lemma tryAction_show_quiz fetch a q w :
  tryAction fetch a (show_quiz q w) = (Normal tt, show_quiz q (tryAction fetch a w).2).
Proof.
  destruct q as [q|]; simpl.
  2:{ pose proof (tryAction_normal fetch a w).
      by destruct (tryAction fetch a w) as [[[]|] ?]. }
  destruct a as [m p s | an obj c sp r i].
  - unfold tryAction, try_catch, executeAction, loadModel, new_object. run_m.
    destruct (models w !! m); simpl; [done|].
    destruct (availableModels !! m) as [url|]; simpl; [|done].
    destruct (fetch (requests w) url); simpl; done.
  - unfold tryAction, try_catch, executeAction, createOrbitAnimation,
      createBeatingAnimation, addAnimation. run_m.
    destruct (models w !! obj) as [id|]; simpl; [|done].
    repeat (case_decide; simpl; try done);
      destruct (heap w !! id); simpl; done.
Qed.

Lemma executeSceneActions_show_quiz fetch acts q w :
  executeSceneActions fetch acts (show_quiz q w) =
    (Normal tt, show_quiz q (executeSceneActions fetch acts w).2).
Proof.
  revert w. induction acts as [|a acts IH]; intros w; [done|].
  rewrite !executeSceneActions_cons, tryAction_show_quiz. simpl. apply IH.
Qed.

Lemma handleAIResponse_quiz_first fetch b w :
  handleAIResponse fetch (Some b) w =
    (Normal tt,
     (executeSceneActions fetch (actions (response b))
        (show_quiz (quiz (response b)) (narrate (narration (response b)) w))).2).
Proof. by rewrite handleAIResponse_bundle, executeSceneActions_show_quiz. Qed.

Lemma solar_system_scale_reply :
  processQuery topics "solar-system" "what about the scale" =
    Some (mkBundle "solar-system" "scale"
      (mkResponse
        "The scale of our solar system is enormous. The Sun is much larger than Earth - about 109 times wider. The distance between them is about 150 million kilometers!"
        [ LoadModelAction "sun" (Some (mkVec3 0 0 0)) (Some 2%Q);
          LoadModelAction "earth" (Some (mkVec3 5 0 0)) (Some 0.2%Q);
          AnimateAction "orbit" "earth" (Some (mkVec3 0 0 0)) (Some 0.005%Q) (Some 5%Q) None ]
        None)).
Proof. by vm_compute. Qed.

(** C9: loading a model key that is in the cache resolves at once with the
    cached model and changes nothing, whatever position and scale are asked
    for.  So the solar-system [scale] template, played over a scene that
    already shows the sun and the earth, moves and rescales neither of them:
    it only registers one more orbit on the earth. *)
Theorem cached_model_is_reused (fetch : nat → string → bool) :
  (∀ w modelName model position scale,
     models w !! modelName = Some model →
     loadModel fetch modelName position scale w = (Normal model, w)) ∧
  (∀ w modelName model position scale,
     models w !! modelName = Some model →
     executeSceneActions fetch [LoadModelAction modelName position scale] w =
       (Normal tt, w)) ∧
  (∀ w sun earth,
     models w !! "sun" = Some sun →
     models w !! "earth" = Some earth →
     let w' := (handleAIResponse fetch
                  (processQuery topics "solar-system" "what about the scale") w).2 in
     heap w' = heap w ∧ children w' = children w ∧ models w' = models w ∧
     requests w' = requests w ∧
     animations w' = animations w ++ [OrbitAnimation earth origin 0 5%Q 0.005%Q]).
Proof.
  split; [|split].
  - intros. by apply loadModel_cached.
  - intros w modelName model position scale H.
    rewrite executeSceneActions_cons.
    by rewrite (tryAction_passed fetch _ _ _ (executeAction_load_cached fetch _ position scale _ _ H)).
  - intros w sun earth Hsun Hearth w'. subst w'.
    rewrite solar_system_scale_reply, handleAIResponse_bundle.
    cbn [response actions narration quiz snd show_quiz].
    destruct (narrate_scene
      "The scale of our solar system is enormous. The Sun is much larger than Earth - about 109 times wider. The distance between them is about 150 million kilometers!" w)
      as (Hh & Hc & Hm & Ha & Hr & _).
    set (w0 := narrate _ w) in *.
    rewrite <- Hm in Hsun, Hearth.
    rewrite !executeSceneActions_cons.
    rewrite (tryAction_passed fetch _ _ _ (executeAction_load_cached fetch _ _ _ _ _ Hsun)).
    cbn [snd].
    rewrite (tryAction_passed fetch _ _ _ (executeAction_load_cached fetch _ _ _ _ _ Hearth)).
    cbn [snd].
    rewrite (tryAction_passed fetch _ _ _ (executeAction_orbit fetch _ _ _ _ _ _ _ Hearth)).
    simpl. by rewrite Hh, Hc, Hm, Ha, Hr.
Qed.

(** The solar system introduced and then asked about its scale: the sun keeps
    scale 1.5 and the earth stays at x = 3 with scale 0.7, although the
    template asks for scale 2, and for x = 5 with scale 0.2. *)
Lemma cached_model_is_reused_witness :
  let fetch := λ (_ : nat) (_ : string), true in
  let w1 := (loadTopic fetch topics "solar-system" init).2 in
  let w2 := (handleUserInput fetch topics "what about the scale" w1).2 in
  heap w2 !! 2 = Some (mkObject (Some "sun") origin (mkVec3 1.5 1.5 1.5)%Q true) ∧
  heap w2 !! 3 = Some (mkObject (Some "earth") (mkVec3 3 0 0) (mkVec3 0.7 0.7 0.7)%Q false) ∧
  animations w2 = [OrbitAnimation 3 origin 0 3%Q 0.01%Q; OrbitAnimation 3 origin 0 5%Q 0.005%Q].
Proof.
  intros fetch w1 w2.
  destruct (cached_model_is_reused fetch) as (_ & _ & H).
  set (w1' := set_chat (λ l, l ++ [mkChat "You" "what about the scale" "user"]) w1).
  destruct (H w1' 2 3 ltac:(by vm_compute) ltac:(by vm_compute)) as (Hh & _ & _ & _ & Ha).
  assert (Hw2 : w2 = (handleAIResponse fetch
                        (processQuery topics "solar-system" "what about the scale") w1').2)
    by (by vm_compute).
  rewrite Hw2, Hh, Ha. vm_compute. repeat split; reflexivity.
Defined.

(** ** Clearing the scene *)

Lemma filter_all {A} (P : A → Prop) `{!∀ x, Decision (P x)} (l : list A) :
  (∀ x, x ∈ l → P x) → filter P l = l.
Proof.
  induction l as [|x l IH]; intros Hall; [done|].
  rewrite filter_cons_True by (apply Hall; left).
  f_equal. apply IH. intros y Hy. apply Hall. by right.
Qed.

Lemma filter_none {A} (P : A → Prop) `{!∀ x, Decision (P x)} (l : list A) :
  (∀ x, x ∈ l → ¬ P x) → filter P l = [].
Proof.
  induction l as [|x l IH]; intros Hnone; [done|].
  rewrite filter_cons_False by (apply Hnone; left).
  apply IH. intros y Hy. apply Hnone. by right.
Qed.

Lemma filter_only {A} (P : A → Prop) `{!∀ x, Decision (P x)} (l : list A) (x : A) :
  NoDup l → x ∈ l → P x → (∀ y, y ∈ l → P y → y = x) → filter P l = [x].
Proof.
  induction l as [|a l IH]; intros Hnd Hin Hx Huniq; [by apply elem_of_nil in Hin|].
  apply NoDup_cons in Hnd as [Ha Hnd].
  destruct (decide (P a)) as [HPa|HPa].
  - assert (a = x) by (apply Huniq; [left | done]). subst a.
    rewrite filter_cons_True by done. f_equal.
    apply filter_none. intros y Hy HPy.
    assert (y = x) by (apply Huniq; [by right | done]). by subst.
  - rewrite filter_cons_False by done.
    apply IH; [done | | done |].
    + apply elem_of_cons in Hin as [->|Hin]; done.
    + intros y Hy. apply Huniq. by right.
Qed.

Lemma foldr_scene_remove ms w :
  foldr scene_remove w ms = set_children (filter (λ c, c ∉ ms)) w.
Proof.
  induction ms as [|m ms IH]; simpl.
  - destruct w. unfold set_children. simpl. f_equal.
    symmetry. apply filter_all. intros x _. apply not_elem_of_nil.
  - rewrite IH. unfold scene_remove, set_children. simpl. f_equal.
    rewrite list_filter_filter. apply list_filter_iff.
    intros c. rewrite not_elem_of_cons. done.
Qed.

Lemma clearScene_cleared w : clearScene w = (Normal tt, cleared w).
Proof. unfold clearScene, cleared. run_m. by rewrite foldr_scene_remove. Qed.

Lemma scene_ok_ext w w' :
  heap w' = heap w → children w' = children w → models w' = models w →
  scene_ok w → scene_ok w'.
Proof.
  intros Hh Hc Hm [H1 H2 H3 H4].
  constructor; rewrite ?Hh, ?Hc, ?Hm; done.
Qed.

Lemma cached_in_values (w : World) k id :
  models w !! k = Some id → id ∈ (map_to_list (models w)).*2.
Proof.
  intros H. apply list_elem_of_fmap. exists (k, id).
  split; [done | by apply elem_of_map_to_list].
Qed.

Lemma scene_ok_cleared w : scene_ok w → scene_ok (cleared w).
Proof.
  intros [H1 H2 H3 H4]. constructor; simpl.
  - by apply NoDup_filter.
  - intros id Hid. apply list_elem_of_filter in Hid as [_ Hid]. by apply H2.
  - intros id o k Hid Ho Hk. apply list_elem_of_filter in Hid as [Hout Hid].
    exfalso. apply Hout. eapply cached_in_values. by eapply H3.
  - intros k id Hk. by rewrite lookup_empty in Hk.
Qed.

Lemma scene_ok_init : scene_ok init.
Proof.
  constructor; simpl.
  - apply (bool_decide_unpack _). by vm_compute.
  - intros id Hid. repeat (apply elem_of_cons in Hid as [->|Hid]; [lia|]).
    by apply elem_of_nil in Hid.
  - intros id o k Hid Ho Hk.
    repeat (apply elem_of_cons in Hid as [->|Hid];
            [simpl in Ho; injection Ho as <-; discriminate|]).
    by apply elem_of_nil in Hid.
  - intros k id Hk. by rewrite lookup_empty in Hk.
Qed.

(** ** The scene across the executor *)

Section SceneFacts.

Variable fetch : nat → string → bool.

Lemma scene_ok_loaded m p s w :
  models w !! m = None → scene_ok w → scene_ok (loaded m p s w).
Proof.
  intros Hm [H1 H2 H3 H4]. constructor; simpl.
  - apply NoDup_app. split; [done|]. split; [|apply NoDup_singleton].
    intros x Hx Hx'. apply list_elem_of_singleton in Hx'. subst.
    apply H2 in Hx. lia.
  - intros id Hid. rewrite length_app. simpl.
    apply elem_of_app in Hid as [Hid|Hid].
    + apply H2 in Hid. lia.
    + apply list_elem_of_singleton in Hid. lia.
  - intros id o k Hid Ho Hk.
    apply elem_of_app in Hid as [Hid|Hid].
    + rewrite lookup_app_l in Ho by by apply H2.
      pose proof (H3 _ _ _ Hid Ho Hk) as Hc.
      rewrite lookup_insert_ne; [done | congruence].
    + apply list_elem_of_singleton in Hid. subst id.
      rewrite list_lookup_middle in Ho by done.
      injection Ho as <-. simpl in Hk. injection Hk as <-.
      apply lookup_insert_eq.
  - intros k id Hk. destruct (decide (m = k)) as [->|Hne].
    + rewrite lookup_insert_eq in Hk. injection Hk as <-. split.
      * apply elem_of_app. right. by apply list_elem_of_singleton.
      * eexists. split; [by apply list_lookup_middle | done].
    + rewrite lookup_insert_ne in Hk by done.
      destruct (H4 _ _ Hk) as (Hin & o & Ho & Hs). split.
      * apply elem_of_app. by left.
      * exists o. split; [|done]. rewrite lookup_app_l; [done|]. by apply H2.
Qed.

(** What one iteration of the loop does to the scene graph and the cache:
    nothing, or the installation of a freshly loaded model. *)
Lemma tryAction_scene a w :
  let w' := (tryAction fetch a w).2 in
  (heap w' = heap w ∧ children w' = children w ∧ models w' = models w) ∨
  (∃ m p0 s0 p s, a = LoadModelAction m p0 s0 ∧ models w !! m = None ∧
                  is_Some (availableModels !! m) ∧ w' = loaded m p s w).
Proof.
  destruct a as [m p s | an obj c sp r i].
  - destruct (models w !! m) as [id|] eqn:Hm.
    { left. by rewrite (tryAction_passed fetch _ _ _ (executeAction_load_cached fetch _ p s _ _ Hm)). }
    destruct (availableModels !! m) as [url|] eqn:Ha.
    + destruct (fetch (requests w) url) eqn:Hf.
      * right. exists m, p, s, (obj_or p origin), (num_or s 1%Q).
        split; [done|]. split; [done|]. split; [by rewrite Ha|].
        by rewrite (tryAction_passed fetch _ _ _ (executeAction_load_loaded fetch _ p s _ _ Hm Ha Hf)).
      * left. by rewrite (tryAction_caught fetch _ _ _ _ (executeAction_load_failed fetch _ p s _ _ Hm Ha Hf)).
    + left. by rewrite (tryAction_caught fetch _ _ _ _ (executeAction_load_unavailable fetch _ p s _ Hm Ha)).
  - left. unfold tryAction, try_catch, executeAction, createOrbitAnimation,
      createBeatingAnimation, addAnimation. run_m.
    destruct (models w !! obj) as [id|]; simpl; [|done].
    repeat (case_decide; simpl; try done);
      destruct (heap w !! id); simpl; done.
Qed.

Lemma tryAction_scene_ok a w : scene_ok w → scene_ok (tryAction fetch a w).2.
Proof.
  intros Hok.
  destruct (tryAction_scene a w) as [(Hh & Hc & Hm) | (m & p0 & s0 & p & s & _ & Hm & _ & ->)].
  - by eapply scene_ok_ext.
  - by apply scene_ok_loaded.
Qed.

Lemma executeSceneActions_scene_ok acts w :
  scene_ok w → scene_ok (executeSceneActions fetch acts w).2.
Proof.
  revert w. induction acts as [|a acts IH]; intros w Hok; [done|].
  rewrite executeSceneActions_cons. by apply IH, tryAction_scene_ok.
Qed.

(** The cache only grows along the executor. *)
Lemma tryAction_models_mono a w k id :
  models w !! k = Some id → models (tryAction fetch a w).2 !! k = Some id.
Proof.
  intros Hk.
  destruct (tryAction_scene a w) as [(_ & _ & Hm) | (m & p0 & s0 & p & s & _ & Hm & _ & ->)].
  - by rewrite Hm.
  - simpl. rewrite lookup_insert_ne; [done | congruence].
Qed.

Lemma executeSceneActions_models_mono acts w k id :
  models w !! k = Some id → models (executeSceneActions fetch acts w).2 !! k = Some id.
Proof.
  revert w. induction acts as [|a acts IH]; intros w Hk; [done|].
  rewrite executeSceneActions_cons. by apply IH, tryAction_models_mono.
Qed.

(** A model enters the cache only through a load action naming it. *)
Lemma executeSceneActions_models_named acts w k :
  is_Some (models (executeSceneActions fetch acts w).2 !! k) →
  is_Some (models w !! k) ∨ k ∈ load_keys acts.
Proof.
  revert w. induction acts as [|a acts IH]; intros w Hk; [by left|].
  rewrite executeSceneActions_cons in Hk. apply IH in Hk as [Hk|Hk].
  - destruct (tryAction_scene a w)
      as [(_ & _ & Hm) | (m & p0 & s0 & p & s & -> & Hm & _ & Hw)].
    + left. by rewrite <- Hm.
    + rewrite Hw in Hk. simpl in Hk. destruct (decide (m = k)) as [->|Hne].
      * right. simpl. left.
      * left. by rewrite lookup_insert_ne in Hk.
  - right. destruct a; simpl; [by right | done].
Qed.

(** Models installed by the executor are fresh objects. *)
Lemma executeSceneActions_models_fresh acts w (N : nat) :
  (N ≤ length (heap w))%nat →
  (∀ k id, models w !! k = Some id → (N ≤ id)%nat) →
  ∀ k id, models (executeSceneActions fetch acts w).2 !! k = Some id → (N ≤ id)%nat.
Proof.
  revert w. induction acts as [|a acts IH]; intros w HN Hold; [done|].
  rewrite executeSceneActions_cons. apply IH.
  - destruct (tryAction_scene a w)
      as [(Hh & _ & _) | (m & p0 & s0 & p & s & _ & _ & _ & ->)].
    + by rewrite Hh.
    + simpl. rewrite length_app. lia.
  - intros k id.
    destruct (tryAction_scene a w)
      as [(_ & _ & Hm) | (m & p0 & s0 & p & s & _ & _ & _ & ->)].
    + rewrite Hm. apply Hold.
    + simpl. destruct (decide (m = k)) as [->|Hne].
      * rewrite lookup_insert_eq. intros [= <-]. done.
      * rewrite lookup_insert_ne by done. apply Hold.
Qed.

(** With every asset request succeeding, each available key the list asks
    to load is cached at the end. *)
Lemma executeSceneActions_loads acts w k :
  (∀ n url, fetch n url = true) →
  k ∈ load_keys acts →
  is_Some (availableModels !! k) →
  is_Some (models (executeSceneActions fetch acts w).2 !! k).
Proof.
  intros Hfetch. revert w. induction acts as [|a acts IH]; intros w Hk Hav.
  { by apply elem_of_nil in Hk. }
  rewrite executeSceneActions_cons.
  destruct a as [m p s | an obj c sp r i]; simpl in Hk; [|by apply IH].
  apply elem_of_cons in Hk as [->|Hk]; [|by apply IH].
  set (w' := (tryAction fetch (LoadModelAction m p s) w).2).
  assert (is_Some (models w' !! m)) as [id Hid].
  { subst w'. destruct (models w !! m) as [id|] eqn:Hm.
    - rewrite (tryAction_passed fetch _ _ _ (executeAction_load_cached fetch _ p s _ _ Hm)).
      simpl. by rewrite Hm.
    - destruct Hav as [url Ha].
      rewrite (tryAction_passed fetch _ _ _
                 (executeAction_load_loaded fetch _ p s _ _ Hm Ha (Hfetch _ _))).
      simpl. by rewrite lookup_insert_eq. }
  exists id. by apply executeSceneActions_models_mono.
Qed.

End SceneFacts.

(** ** Counting instances *)

Lemma instances_of_cached w k id :
  scene_ok w → models w !! k = Some id → instances_of k w = [id].
Proof.
  intros [H1 H2 H3 H4] Hk. destruct (H4 _ _ Hk) as (Hin & o & Ho & Hs).
  unfold instances_of. apply filter_only; [done | done | by rewrite Ho |].
  intros y Hy HP. destruct (heap w !! y) as [o'|] eqn:Ho'; [|done].
  simpl in HP. pose proof (H3 _ _ _ Hy Ho' HP). congruence.
Qed.

Lemma instances_of_uncached w k :
  scene_ok w → models w !! k = None → instances_of k w = [].
Proof.
  intros [H1 H2 H3 H4] Hk. unfold instances_of. apply filter_none.
  intros y Hy HP. destruct (heap w !! y) as [o'|] eqn:Ho'; [|done].
  simpl in HP. pose proof (H3 _ _ _ Hy Ho' HP). congruence.
Qed.

Lemma instances_at_most_one w k : scene_ok w → (instances k w ≤ 1)%nat.
Proof.
  intros Hok. unfold instances. destruct (models w !! k) as [id|] eqn:Hk.
  - by rewrite (instances_of_cached _ _ _ Hok Hk).
  - rewrite (instances_of_uncached _ _ Hok Hk). simpl. lia.
Qed.

(** ** Topic switches *)

Lemma processQuery_explain registry topicId t r :
  registry !! topicId = Some t →
  responses t !! "explain" = Some r →
  processQuery registry topicId "explain" = Some (mkBundle topicId "explain" r).
Proof.
  intros Ht Hr. unfold processQuery. rewrite Ht.
  change (detectIntent topicId "explain") with "explain". by rewrite Hr.
Qed.

Lemma loadTopic_known fetch registry topicId t r w :
  registry !! topicId = Some t →
  responses t !! "explain" = Some r →
  loadTopic fetch registry topicId w =
    (Normal tt,
     show_quiz (quiz r)
       (executeSceneActions fetch (actions r)
          (switched topicId (name t) (narration r) w)).2).
Proof.
  intros Ht Hr. unfold loadTopic, switched.
  rewrite (processQuery_explain _ _ _ _ Ht Hr), Ht.
  unfold mbind, M_bind at 1. unfold modify at 1.
  unfold mbind, M_bind at 1. rewrite clearScene_cleared.
  unfold mbind, M_bind at 1. unfold mret, M_ret at 1.
  unfold mbind, M_bind at 1. unfold addChatMessage at 1. unfold modify at 1.
  unfold try_catch. by rewrite handleAIResponse_bundle.
Qed.

Lemma loadTopic_unknown fetch registry topicId w :
  registry !! topicId = None →
  loadTopic fetch registry topicId w =
    (Throw (TypeError "Cannot read properties of undefined (reading 'name')"),
     cleared (set_currentTopic (Some topicId) w)).
Proof.
  intros Ht. unfold loadTopic. rewrite Ht.
  unfold mbind, M_bind at 1. unfold modify at 1.
  unfold mbind, M_bind at 1. by rewrite clearScene_cleared.
Qed.

Lemma switched_scene topicId topicName text w :
  heap (switched topicId topicName text w) = heap w ∧
  models (switched topicId topicName text w) = ∅ ∧
  (scene_ok w → scene_ok (switched topicId topicName text w)).
Proof.
  unfold switched.
  destruct (narrate_scene text
    (set_chat (λ l, l ++ [mkChat "AI Teacher" ("Loading " +:+ topicName +:+ " lesson...") "ai"])
       (cleared (set_currentTopic (Some topicId) w)))) as (Hh & Hc & Hm & _).
  split; [by rewrite Hh|]. split; [by rewrite Hm|].
  intros Hok. eapply scene_ok_ext; [exact Hh | exact Hc | exact Hm |].
  eapply scene_ok_ext; [| | | apply scene_ok_cleared; eapply scene_ok_ext; [| | | exact Hok]];
    reflexivity.
Qed.

Lemma registry_explain_keys :
  map_Forall (λ _ t, explain_keys_available t = true) topics.
Proof. apply (bool_decide_unpack _). by vm_compute. Qed.

Lemma instances_of_show_quiz k q w : instances_of k (show_quiz q w) = instances_of k w.
Proof. by destruct q. Qed.

(** The scene a switch to a registered topic leaves behind. *)
Lemma loadTopic_scene fetch registry topicId t r w :
  registry !! topicId = Some t →
  responses t !! "explain" = Some r →
  scene_ok w →
  let w1 := (loadTopic fetch registry topicId w).2 in
  scene_ok w1 ∧
  (∀ k id, models w1 !! k = Some id → (length (heap w) ≤ id)%nat) ∧
  (∀ k, is_Some (models w1 !! k) → k ∈ load_keys (actions r)) ∧
  ((∀ n url, fetch n url = true) →
   ∀ k, k ∈ load_keys (actions r) → is_Some (availableModels !! k) →
        is_Some (models w1 !! k)).
Proof.
  intros Ht Hr Hok w1. subst w1. rewrite (loadTopic_known _ _ _ _ _ _ Ht Hr). simpl.
  destruct (switched_scene topicId (name t) (narration r) w) as (Hh & Hm & Hs).
  set (w0 := switched topicId (name t) (narration r) w) in *.
  destruct (show_quiz_scene (quiz r) (executeSceneActions fetch (actions r) w0).2)
    as (Qh & Qc & Qm & _).
  split; [|split; [|split]].
  - eapply scene_ok_ext; [exact Qh | exact Qc | exact Qm |].
    by apply executeSceneActions_scene_ok, Hs.
  - rewrite Qm, <- Hh. apply executeSceneActions_models_fresh; [done|].
    intros k id. by rewrite Hm, lookup_empty.
  - intros k. rewrite Qm. intros Hk.
    apply executeSceneActions_models_named in Hk as [Hk|Hk]; [|done].
    rewrite Hm, lookup_empty in Hk. by destruct Hk.
  - intros Hfetch k Hk Hav. rewrite Qm. by apply executeSceneActions_loads.
Qed.

Lemma handleAIResponse_scene_ok fetch reply w :
  scene_ok w → scene_ok (handleAIResponse fetch reply w).2.
Proof.
  intros Hok. destruct reply as [b|]; [|done].
  rewrite handleAIResponse_bundle. simpl.
  destruct (narrate_scene (narration (response b)) w) as (Hh & Hc & Hm & _).
  destruct (show_quiz_scene (quiz (response b))
              (executeSceneActions fetch (actions (response b))
                 (narrate (narration (response b)) w)).2) as (Qh & Qc & Qm & _).
  eapply scene_ok_ext; [exact Qh | exact Qc | exact Qm |].
  apply executeSceneActions_scene_ok. by eapply scene_ok_ext.
Qed.

Lemma handleAIResponse_normal fetch reply w :
  (handleAIResponse fetch reply w).1 = Normal tt.
Proof. destruct reply as [b|]; [|done]. by rewrite handleAIResponse_bundle. Qed.

(** The consistency of the scene is an invariant of every turn, whatever
    the registry, the requests' outcomes and the turn's own completion. *)
Lemma turn_scene_ok fetch registry e w :
  scene_ok w → scene_ok (turn fetch registry e w).2.
Proof.
  intros Hok. destruct e as [topicId | text]; simpl.
  - destruct (registry !! topicId) as [t|] eqn:Ht.
    + unfold loadTopic. rewrite Ht.
      unfold mbind, M_bind at 1. unfold modify at 1.
      unfold mbind, M_bind at 1. rewrite clearScene_cleared.
      unfold mbind, M_bind at 1. unfold mret, M_ret at 1.
      unfold mbind, M_bind at 1. unfold addChatMessage at 1. unfold modify at 1.
      unfold try_catch.
      match goal with
      | |- context [handleAIResponse fetch ?r ?w0] =>
          generalize (handleAIResponse_normal fetch r w0)
                     (handleAIResponse_scene_ok fetch r w0);
          destruct (handleAIResponse fetch r w0) as [[[]|err] w1];
          simpl; intros Hn Hs; [|discriminate]
      end.
      apply Hs.
      eapply scene_ok_ext;
        [| | | apply scene_ok_cleared; eapply scene_ok_ext; [| | | exact Hok]];
        reflexivity.
    + rewrite (loadTopic_unknown _ _ _ _ Ht). simpl.
      apply scene_ok_cleared. eapply scene_ok_ext; [| | | exact Hok]; reflexivity.
  - unfold handleUserInput. case_decide; [done|].
    unfold mbind, M_bind at 1. unfold addChatMessage at 1. unfold modify at 1.
    unfold mbind, M_bind at 1. unfold gets at 1. unfold try_catch.
    match goal with
    | |- context [handleAIResponse fetch ?r ?w0] =>
        generalize (handleAIResponse_normal fetch r w0)
                   (handleAIResponse_scene_ok fetch r w0);
        destruct (handleAIResponse fetch r w0) as [[[]|err] w1];
        simpl; intros Hn Hs; [|discriminate]
    end.
    apply Hs. eapply scene_ok_ext; [| | | exact Hok]; reflexivity.
Qed.

Lemma run_scene_ok fetch registry history w :
  scene_ok w → scene_ok (run fetch registry history w).
Proof.
  revert w. induction history as [|e history IH]; intros w Hok; [done|].
  simpl. by apply IH, turn_scene_ok.
Qed.

(** Two switches to a topic of the registry, the loader having answered
    every request of the first before the second starts: each clears and
    repopulates the scene.  After either switch the scene graph is
    consistent with the cache and holds at most one instance of any model
    key; when the asset requests succeed it holds exactly one instance of
    each key the topic's [explain] template loads and none of any other key,
    and the instance present after the second switch is a new object, not
    the one of the first. *)
Theorem topic_switch_reloads_once (fetch : nat → string → bool)
    (topicId : string) (t : Topic) (r : ResponseTemplate) (w : World) :
  scene_ok w →
  topics !! topicId = Some t →
  responses t !! "explain" = Some r →
  let w1 := (loadTopic fetch topics topicId w).2 in
  let w2 := (loadTopic fetch topics topicId w1).2 in
  (scene_ok w1 ∧ scene_ok w2 ∧
   ∀ k, (instances k w1 ≤ 1)%nat ∧ (instances k w2 ≤ 1)%nat) ∧
  ((∀ n url, fetch n url = true) →
   (∀ k, k ∈ load_keys (actions r) →
      instances k w1 = 1 ∧ instances k w2 = 1 ∧
      ∃ id1 id2, instances_of k w1 = [id1] ∧ instances_of k w2 = [id2] ∧ (id1 < id2)%nat) ∧
   (∀ k, k ∉ load_keys (actions r) → instances k w1 = 0 ∧ instances k w2 = 0)).
Proof.
  intros Hok Ht Hr w1 w2.
  destruct (loadTopic_scene fetch topics topicId t r w Ht Hr Hok) as (Hok1 & _ & Hnamed1 & Hload1).
  fold w1 in Hok1, Hnamed1, Hload1.
  destruct (loadTopic_scene fetch topics topicId t r w1 Ht Hr Hok1)
    as (Hok2 & Hfresh2 & Hnamed2 & Hload2).
  fold w2 in Hok2, Hfresh2, Hnamed2, Hload2.
  assert (Hav : ∀ k, k ∈ load_keys (actions r) → is_Some (availableModels !! k)).
  { pose proof (registry_explain_keys topicId t Ht) as H.
    unfold explain_keys_available in H. rewrite Hr in H.
    apply bool_decide_eq_true in H. intros k Hk.
    by apply (proj1 (Forall_forall _ _) H). }
  split.
  { split; [done|]. split; [done|]. intros k. split; by apply instances_at_most_one. }
  intros Hfetch. split.
  - intros k Hk.
    destruct (Hload1 Hfetch k Hk (Hav k Hk)) as [id1 H1].
    destruct (Hload2 Hfetch k Hk (Hav k Hk)) as [id2 H2].
    pose proof (instances_of_cached _ _ _ Hok1 H1) as I1.
    pose proof (instances_of_cached _ _ _ Hok2 H2) as I2.
    unfold instances. rewrite I1, I2. split; [done|]. split; [done|].
    exists id1, id2. split; [done|]. split; [done|].
    pose proof (Hfresh2 _ _ H2) as Hge.
    destruct (ok_shown _ Hok1 _ _ H1) as (Hin & _).
    pose proof (ok_alloc _ Hok1 _ Hin). lia.
  - intros k Hk. unfold instances.
    rewrite !instances_of_uncached; [done | done | | done |].
    + destruct (models w2 !! k) eqn:E; [|done]. exfalso. apply Hk, Hnamed2. by rewrite E.
    + destruct (models w1 !! k) eqn:E; [|done]. exfalso. apply Hk, Hnamed1. by rewrite E.
Qed.

(** The volcano topic entered twice from the initial scene: one volcano
    after the first switch (object 2), one after the second (object 3). *)
Lemma topic_switch_reloads_once_witness :
  let fetch := λ (_ : nat) (_ : string), true in
  let w1 := (loadTopic fetch topics "volcano" init).2 in
  let w2 := (loadTopic fetch topics "volcano" w1).2 in
  instances "volcano" w1 = 1 ∧ instances "volcano" w2 = 1 ∧
  children w1 = [0; 1; 2] ∧ children w2 = [0; 1; 3].
Proof.
  intros fetch w1 w2.
  split; [|split]; [| |by vm_compute].
  all: destruct (responses volcano !! "explain") as [r|] eqn:Hr; [|by vm_compute in Hr].
  all: destruct (topic_switch_reloads_once fetch "volcano" volcano r init
                   scene_ok_init ltac:(by vm_compute) Hr) as (_ & H).
  all: destruct (H ltac:(done)) as (Hone & _).
  all: destruct (Hone "volcano") as (H1 & H2 & _);
    [vm_compute in Hr; injection Hr as <-; simpl; left|].
  - exact H1.
  - exact H2.
Defined.

(** C7: the code does not keep the scene to one instance per key when a
    topic is switched to twice in a row.  [loadTopic] does not wait for the
    executor it starts: it returns while the request for the volcano asset
    is in flight, with nothing in the cache yet.  The second switch
    therefore finds no model to remove and no cached volcano, and asks the
    loader again.  When the loader has answered both requests the scene
    holds two volcanoes, of which the cache knows the second only; the next
    switch, to the heart, removes that one and leaves the first in the
    scene for good.  Had the loader answered the first request before the
    second switch, the scene would hold one volcano. *)
Theorem switch_before_load_duplicates_model :
  let l0 := EventLoop.run topics
              [EventLoop.Click "volcano"; EventLoop.Click "volcano"] EventLoop.start in
  let l := EventLoop.run topics
             [EventLoop.Answer 0 true; EventLoop.Answer 0 true] l0 in
  let next := EventLoop.run topics
                [EventLoop.Click "heart-anatomy"; EventLoop.Answer 0 true] l in
  let waited := EventLoop.run topics
                  [EventLoop.Click "volcano"; EventLoop.Answer 0 true;
                   EventLoop.Click "volcano"; EventLoop.Answer 0 true] EventLoop.start in
  (EventLoop.rq_model <$> EventLoop.inflight l0 = ["volcano"; "volcano"] ∧
   models (EventLoop.world l0) = ∅ ∧
   children (EventLoop.world l0) = [0; 1]) ∧
  (EventLoop.inflight l = [] ∧
   instances "volcano" (EventLoop.world l) = 2 ∧
   instances_of "volcano" (EventLoop.world l) = [2; 3] ∧
   children (EventLoop.world l) = [0; 1; 2; 3] ∧
   models (EventLoop.world l) !! "volcano" = Some 3) ∧
  (EventLoop.inflight next = [] ∧
   currentTopic (EventLoop.world next) = Some "heart-anatomy" ∧
   instances_of "volcano" (EventLoop.world next) = [2] ∧
   models (EventLoop.world next) !! "volcano" = None ∧
   children (EventLoop.world next) = [0; 1; 2; 4]) ∧
  (EventLoop.inflight waited = [] ∧
   instances "volcano" (EventLoop.world waited) = 1 ∧
   children (EventLoop.world waited) = [0; 1; 3]).
Proof. vm_compute. repeat split; reflexivity. Qed.

(** ** Switching to an unregistered topic *)

(** C4: what [loadTopic] does for a topic id that is not in the registry.
    [processQuery] answers such an id with [null], for every query, and
    [handleAIResponse] ignores a [null] reply; but [loadTopic] records the id
    as the current topic and clears the scene before it reads the topic's
    name, and that read raises a [TypeError] which nothing catches.  No chat
    message is written and nothing is spoken.  On the scene showing the
    beating heart, the switch to "mars-colony" removes the heart and its
    animation. *)
Theorem unknown_topic_switch_clears_scene :
  topics !! "mars-colony" = None ∧
  (∀ query, processQuery topics "mars-colony" query = None) ∧
  (∀ fetch w, handleAIResponse fetch None w = (Normal tt, w)) ∧
  (∀ fetch w,
     loadTopic fetch topics "mars-colony" w =
       (Throw (TypeError "Cannot read properties of undefined (reading 'name')"),
        cleared (set_currentTopic (Some "mars-colony") w)) ∧
     chat (loadTopic fetch topics "mars-colony" w).2 = chat w ∧
     utterances (loadTopic fetch topics "mars-colony" w).2 = utterances w) ∧
  let fetch := λ (_ : nat) (_ : string), true in
  let w := (loadTopic fetch topics "heart-anatomy" init).2 in
  let w' := (loadTopic fetch topics "mars-colony" w).2 in
  children w = [0; 1; 2] ∧ models w !! "heart" = Some 2 ∧ instances "heart" w = 1 ∧
  animations w = [BeatingAnimation 2 (mkVec3 1.2 1.2 1.2)%Q 0 0.1%Q 0.1%Q] ∧
  children w' = [0; 1] ∧ models w' !! "heart" = None ∧ instances "heart" w' = 0 ∧
  animations w' = [] ∧ currentTopic w' = Some "mars-colony".
Proof.
  assert (Hnone : topics !! "mars-colony" = None) by (vm_compute; reflexivity).
  split; [exact Hnone|]. split; [|split; [|split]].
  - intros query. unfold processQuery. by rewrite Hnone.
  - reflexivity.
  - intros fetch w. rewrite (loadTopic_unknown fetch topics "mars-colony" w Hnone).
    repeat split; reflexivity.
  - vm_compute. repeat split; reflexivity.
Qed.

(** * Further properties of the code *)

(** ** The executor, step by step *)

Lemma tryAction_step fetch a w : action_step fetch a w (tryAction fetch a w).2.
Proof.
  destruct a as [m p s | an obj c sp r i].
  - destruct (models w !! m) as [id|] eqn:Hm.
    { rewrite (tryAction_passed fetch _ _ _ (executeAction_load_cached fetch _ p s _ _ Hm)).
      by eapply step_cached. }
    destruct (availableModels !! m) as [url|] eqn:Ha.
    + destruct (fetch (requests w) url) eqn:Hf.
      * rewrite (tryAction_passed fetch _ _ _
                   (executeAction_load_loaded fetch _ p s _ _ Hm Ha Hf)).
        by eapply step_loaded.
      * rewrite (tryAction_caught fetch _ _ _ _
                   (executeAction_load_failed fetch _ p s _ _ Hm Ha Hf)).
        by eapply step_failed.
    + rewrite (tryAction_caught fetch _ _ _ _
                 (executeAction_load_unavailable fetch _ p s _ Hm Ha)).
      by apply step_unavailable.
  - destruct (models w !! obj) as [id|] eqn:Hm.
    2:{ rewrite (tryAction_passed fetch _ _ _
                   (executeAction_missing_target fetch (AnimateAction an obj c sp r i) w Hm)).
        by apply step_missing. }
    destruct (decide (an = "orbit")) as [->|Ho].
    { rewrite (tryAction_passed fetch _ _ _ (executeAction_orbit fetch _ c sp r i _ _ Hm)).
      by apply step_orbit. }
    destruct (heap w !! id) as [o|] eqn:Hh.
    + destruct (decide (an = "beat")) as [->|Hb].
      { rewrite (tryAction_passed fetch _ _ _ (executeAction_beat fetch _ c sp r i _ _ _ Hm Hh)).
        by eapply step_beat. }
      destruct (decide (an = "pulse")) as [->|Hp].
      { rewrite (tryAction_passed fetch _ _ _ (executeAction_pulse fetch _ c sp r i _ _ _ Hm Hh)).
        by eapply step_pulse. }
      replace (tryAction fetch (AnimateAction an obj c sp r i) w).2 with w;
        [by eapply step_unknown|].
      unfold tryAction, try_catch, executeAction. run_m. rewrite Hm. simpl.
      by rewrite !decide_False by done.
    + destruct (decide (an = "beat" ∨ an = "pulse")) as [Hbp|Hn].
      * replace (tryAction fetch (AnimateAction an obj c sp r i) w).2 with
          (set_console
             (λ l, l ++ [ErrorExecutingAction "animate"
                (TypeError "Cannot read properties of undefined (reading 'scale')")]) w);
          [by eapply step_dangling|].
        unfold tryAction, try_catch, executeAction, createBeatingAnimation. run_m.
        rewrite Hm. simpl. rewrite decide_False by done.
        destruct Hbp as [->| ->]; simpl; by rewrite Hh.
      * replace (tryAction fetch (AnimateAction an obj c sp r i) w).2 with w;
          [eapply step_unknown; [done | done | tauto | tauto]|].
        unfold tryAction, try_catch, executeAction. run_m. rewrite Hm. simpl.
        rewrite !decide_False; [done | tauto | tauto | done].
Qed.

Lemma extends_refl w : extends w w.
Proof. by constructor. Qed.

Lemma extends_trans w1 w2 w3 : extends w1 w2 → extends w2 w3 → extends w1 w3.
Proof.
  intros [] []. constructor; try (etrans; eassumption); try congruence.
Qed.

Lemma action_step_extends fetch a w w' : action_step fetch a w w' → extends w w'.
Proof.
  destruct 1; try apply extends_refl; constructor; simpl;
    try done; try lia;
    try (by apply prefix_app_r);
    try (rewrite <- app_assoc; by apply prefix_app_r);
    try (by apply insert_subseteq).
Qed.

Lemma executeSceneActions_extends (fetch : nat → string → bool)
    (acts : list Action) (w : World) :
  extends w (executeSceneActions fetch acts w).2.
Proof.
  revert w. induction acts as [|a acts IH]; intros w; [apply extends_refl|].
  rewrite executeSceneActions_cons.
  eapply extends_trans; [|apply IH].
  apply (action_step_extends fetch a), tryAction_step.
Qed.


(** X2: a run of the executor issues at most one asset request per load
    action, creates at most one object per request, and puts the objects it
    creates in the scene: the children it adds to the scene are exactly the
    objects it has created, each once, in the order of their creation. *)
Theorem executor_request_budget (fetch : nat → string → bool)
    (acts : list Action) (w : World) :
  let w' := (executeSceneActions fetch acts w).2 in
  (requests w' ≤ requests w + length (load_keys acts))%nat ∧
  (length (heap w') + requests w ≤ length (heap w) + requests w')%nat ∧
  length (children w') + length (heap w) = length (children w) + length (heap w') ∧
  children w' =
    children w ++ seq (length (heap w)) (length (heap w') - length (heap w)).
Proof.
  revert w. induction acts as [|a acts IH]; intros w.
  { simpl. rewrite Nat.sub_diag. simpl. rewrite app_nil_r. repeat split; (lia || done). }
  cbn zeta. rewrite executeSceneActions_cons.
  specialize (IH (tryAction fetch a w).2). cbn zeta in IH.
  pose proof (prefix_length _ _
                (ext_heap _ _ (executeSceneActions_extends fetch acts (tryAction fetch a w).2)))
    as Hlen.
  pose proof (tryAction_step fetch a w) as Hstep.
  destruct IH as (I1 & I2 & I3 & I4).
  destruct Hstep; simpl in *; rewrite ?length_app in *; simpl in *;
    (split; [lia | split; [lia | split; [lia|]]]); rewrite I4; try done.
  rewrite <- app_assoc. f_equal.
  match goal with
  | |- context [seq (length (heap ?w0)) (?n - length (heap ?w0))] =>
      replace (n - length (heap w0)) with (S (n - (length (heap w0) + 1))) by lia
  end.
  simpl. by rewrite Nat.add_1_r.
Qed.

(** X3: a failed load is not remembered.  When the request of a load fails
    and the list holds a later load of the same key, that load issues a new
    request; if it succeeds the model is installed with the position and
    scale of the later action, and the console keeps the two lines of the
    failure. *)
Theorem failed_load_is_retried (fetch : nat → string → bool) (w : World)
    (key url : string) (p1 p2 : option Vec3) (s1 s2 : option Q) :
  models w !! key = None →
  availableModels !! key = Some url →
  fetch (requests w) url = false →
  fetch (S (requests w)) url = true →
  let w' := (executeSceneActions fetch
               [LoadModelAction key p1 s1; LoadModelAction key p2 s2] w).2 in
  requests w' = S (S (requests w)) ∧
  models w' !! key = Some (length (heap w)) ∧
  heap w' = heap w ++ [mkObject (Some key) (obj_or p2 origin)
                         (mkVec3 (num_or s2 1%Q) (num_or s2 1%Q) (num_or s2 1%Q))
                         (bool_decide (key = "sun"))] ∧
  children w' = children w ++ [length (heap w)] ∧
  console w' = console w ++ [ErrorLoadingModel (LoaderError url);
                             ErrorExecutingAction "loadModel" (LoaderError url)].
Proof.
  intros Hm Ha Hf1 Hf2 w'. subst w'.
  rewrite !executeSceneActions_cons.
  rewrite (tryAction_caught fetch _ _ _ _ (executeAction_load_failed fetch _ p1 s1 _ _ Hm Ha Hf1)).
  cbn [snd].
  set (w1 := set_console _ (set_console _ (set_requests S w))).
  rewrite (tryAction_passed fetch _ _ _
             (executeAction_load_loaded fetch key p2 s2 w1 url Hm Ha Hf2)).
  simpl. rewrite lookup_insert_eq, <- app_assoc. done.
Qed.

(** The sun on the initial scene, with the first request lost. *)
Lemma failed_load_is_retried_witness :
  let fetch := λ (n : nat) (_ : string), negb (Nat.eqb n 0) in
  let w' := (executeSceneActions fetch
               [LoadModelAction "sun" None None;
                LoadModelAction "sun" (Some (mkVec3 1 0 0)) (Some 2%Q)] init).2 in
  requests w' = 2 ∧ models w' !! "sun" = Some 2 ∧
  heap w' !! 2 = Some (mkObject (Some "sun") (mkVec3 1 0 0) (mkVec3 2 2 2) true).
Proof.
  intros fetch w'.
  destruct (availableModels !! "sun") as [url|] eqn:Hurl; [|by vm_compute in Hurl].
  destruct (failed_load_is_retried fetch init "sun" url None (Some (mkVec3 1 0 0))
              None (Some 2%Q) ltac:(by vm_compute) Hurl ltac:(reflexivity) ltac:(reflexivity))
    as (Hr & Hm & Hh & _).
  fold w' in Hr, Hm, Hh.
  split; [exact Hr|]. split; [exact Hm|]. rewrite Hh. reflexivity.
Defined.

Lemma num_or_nonzero (q dflt : Q) : ¬ (q == 0)%Q → num_or (Some q) dflt = q.
Proof.
  intros Hq. unfold num_or, truthy.
  destruct (Qeq_bool q 0) eqn:E; [|done].
  by apply Qeq_bool_iff in E.
Qed.

Lemma reads_nonzero_neq (x : Q) : reads_nonzero x → ¬ (x == 0)%Q.
Proof.
  unfold reads_nonzero. generalize (2 ^ 1075)%positive. intros d Hd Hx.
  rewrite Hx in Hd. unfold Qlt in Hd. simpl in Hd. lia.
Qed.

(** X4: an explicit value given as a decimal literal whose double is not
    zero (its magnitude is above [2^-1075], so it is not read as [0]) wins
    over the default: a load gives its object the scale asked for, an orbit
    takes the speed and the radius given, a beat or a pulse the speed and the
    intensity given, whatever their sign. *)
Theorem explicit_nonzero_is_kept (fetch : nat → string → bool) (w : World) (x y : Q) :
  reads_nonzero x → reads_nonzero y →
  (∀ m p url,
     models w !! m = None → availableModels !! m = Some url →
     fetch (requests w) url = true →
     heap (executeAction fetch (LoadModelAction m p (Some x)) w).2 =
       heap w ++ [mkObject (Some m) (obj_or p origin) (mkVec3 x x x)
                    (bool_decide (m = "sun"))]) ∧
  (∀ o c i model,
     models w !! o = Some model →
     animations (executeAction fetch (AnimateAction "orbit" o c (Some x) (Some y) i) w).2 =
       animations w ++ [OrbitAnimation model (obj_or c origin) 0 y x]) ∧
  (∀ an o c r model obj,
     an = "beat" ∨ an = "pulse" →
     models w !! o = Some model → heap w !! model = Some obj →
     animations (executeAction fetch (AnimateAction an o c (Some x) r (Some y)) w).2 =
       animations w ++ [BeatingAnimation model (obj_scale obj) 0 x y]).
Proof.
  intros Hx%reads_nonzero_neq Hy%reads_nonzero_neq. split; [|split].
  - intros m p url H1 H2 H3.
    rewrite (executeAction_load_loaded fetch _ _ _ _ _ H1 H2 H3).
    by rewrite (num_or_nonzero x _ Hx).
  - intros o c i model H.
    rewrite (executeAction_orbit fetch _ _ _ _ _ _ _ H).
    by rewrite (num_or_nonzero x _ Hx), (num_or_nonzero y _ Hy).
  - intros an o c r model obj [-> | ->] H1 H2.
    + rewrite (executeAction_beat fetch _ _ _ _ _ _ _ _ H1 H2).
      by rewrite (num_or_nonzero x _ Hx), (num_or_nonzero y _ Hy).
    + rewrite (executeAction_pulse fetch _ _ _ _ _ _ _ _ H1 H2).
      by rewrite (num_or_nonzero x _ Hx), (num_or_nonzero y _ Hy).
Qed.

(** A heart beating backwards: speed -0.1, intensity 0.3. *)
Lemma explicit_nonzero_is_kept_witness :
  let fetch := λ (_ : nat) (_ : string), true in
  let w := loaded "heart" origin 1%Q init in
  animations (executeAction fetch
                (AnimateAction "beat" "heart" None (Some (-0.1)%Q) None (Some 0.3%Q)) w).2 =
    [BeatingAnimation 2 (mkVec3 1 1 1) 0 (-0.1)%Q 0.3%Q].
Proof.
  intros fetch w.
  destruct (explicit_nonzero_is_kept fetch w (-0.1)%Q 0.3%Q) as (_ & _ & H).
  - vm_compute. reflexivity.
  - vm_compute. reflexivity.
  - apply (H "beat" "heart" None None 2 (mkObject (Some "heart") origin (mkVec3 1 1 1) false));
      [by left | by vm_compute | by vm_compute].
Defined.

Lemma executor_console_lines (fetch : nat → string → bool)
    (acts : list Action) (w : World) :
  scene_ok w →
  ∃ lines, console (executeSceneActions fetch acts w).2 = console w ++ lines ∧
           Forall is_load_line lines.
Proof.
  revert w. induction acts as [|a acts IH]; intros w Hok.
  { exists []. by rewrite app_nil_r. }
  rewrite executeSceneActions_cons.
  destruct (IH _ (tryAction_scene_ok fetch a w Hok)) as (rest & Hrest & Hall).
  rewrite Hrest.
  pose proof (tryAction_step fetch a w) as Hstep.
  destruct Hstep; simpl;
    try (exists rest; by split);
    try (eexists (_ :: rest); split; [by rewrite <- app_assoc | by constructor]).
  - eexists (_ :: _ :: rest). split; [by rewrite <- !app_assoc|].
    by repeat constructor.
  - destruct (ok_shown _ Hok _ _ H) as (_ & o & Ho & _). congruence.
Qed.


(** X5: in a consistent scene only loads can fail.  When no action of the
    list names an inherited property as its model or object key, every
    console line a run of the executor adds is a line of a failed load; an
    animation never raises and never logs. *)
Theorem only_loads_are_logged (fetch : nat → string → bool)
    (acts : list Action) (w : World) :
  Forall own_action acts →
  scene_ok w →
  ∃ lines, console (executeSceneActions fetch acts w).2 = console w ++ lines ∧
           Forall is_load_line lines.
Proof. intros _. apply executor_console_lines. Qed.

(** One failing load among animations, on the initial scene. *)
Lemma only_loads_are_logged_witness :
  let fetch := λ (_ : nat) (_ : string), false in
  ∃ lines,
    console (executeSceneActions fetch
               [AnimateAction "beat" "heart" None None None None;
                LoadModelAction "heart" None None;
                AnimateAction "beat" "heart" None None None None] init).2 = lines ∧
    Forall is_load_line lines.
Proof.
  intros fetch.
  destruct (only_loads_are_logged fetch
              [AnimateAction "beat" "heart" None None None None;
               LoadModelAction "heart" None None;
               AnimateAction "beat" "heart" None None None None] init
              ltac:(repeat constructor) scene_ok_init)
    as (lines & Hc & Hall).
  exists lines. split; [exact Hc | exact Hall].
Defined.

(** ** Invariants of every history *)

Lemma loadTopic_registered fetch registry topicId t w :
  registry !! topicId = Some t →
  loadTopic fetch registry topicId w =
    handleAIResponse fetch (processQuery registry topicId "explain")
      (set_chat (λ l, l ++ [mkChat "AI Teacher" ("Loading " +:+ name t +:+ " lesson...") "ai"])
         (cleared (set_currentTopic (Some topicId) w))).
Proof.
  intros Ht. unfold loadTopic. rewrite Ht.
  unfold mbind, M_bind at 1. unfold modify at 1.
  unfold mbind, M_bind at 1. rewrite clearScene_cleared.
  unfold mbind, M_bind at 1. unfold mret, M_ret at 1.
  unfold mbind, M_bind at 1. unfold addChatMessage at 1. unfold modify at 1.
  unfold try_catch.
  match goal with
  | |- context [handleAIResponse fetch ?r ?w0] =>
      generalize (handleAIResponse_normal fetch r w0);
      destruct (handleAIResponse fetch r w0) as [[[]|err] w1];
      simpl; intros Hn; [done | discriminate]
  end.
Qed.

Lemma handleUserInput_asked fetch registry text w :
  text ≠ "" →
  handleUserInput fetch registry text w =
    handleAIResponse fetch
      (processQuery registry (default "null" (currentTopic w)) text)
      (set_chat (λ l, l ++ [mkChat "You" text "user"]) w).
Proof.
  intros Ht. unfold handleUserInput. rewrite decide_False by done.
  unfold mbind, M_bind at 1. unfold addChatMessage at 1. unfold modify at 1.
  unfold mbind, M_bind at 1. unfold gets at 1. unfold try_catch. simpl.
  match goal with
  | |- context [handleAIResponse fetch ?r ?w0] =>
      generalize (handleAIResponse_normal fetch r w0);
      destruct (handleAIResponse fetch r w0) as [[[]|err] w1];
      simpl; intros Hn; [done | discriminate]
  end.
Qed.

Lemma run_invariant fetch registry (P : World → Prop) :
  (∀ e w, P w → P (turn fetch registry e w).2) →
  ∀ history w, P w → P (run fetch registry history w).
Proof.
  intros Hturn. induction history as [|e history IH]; intros w Hw; [done|].
  simpl. by apply IH, Hturn.
Qed.

Lemma action_step_animations_ok fetch a w w' :
  action_step fetch a w w' → animations_ok w → animations_ok w'.
Proof.
  intros Hstep Hok. destruct Hstep; try done; intros a Ha; simpl in *.
  - destruct (Hok a Ha) as (k & Hk). exists k.
    rewrite lookup_insert_ne; [done | congruence].
  - apply elem_of_app in Ha as [Ha|Ha]; [by apply Hok|].
    apply list_elem_of_singleton in Ha. subst. by exists obj.
  - apply elem_of_app in Ha as [Ha|Ha]; [by apply Hok|].
    apply list_elem_of_singleton in Ha. subst. by exists obj.
  - apply elem_of_app in Ha as [Ha|Ha]; [by apply Hok|].
    apply list_elem_of_singleton in Ha. subst. by exists obj.
Qed.

(** ** The event loop *)

Lemma tryAction_unasked fetch a w :
  EventLoop.requested a w = None →
  tryAction fetch a w = tryAction EventLoop.unasked a w.
Proof.
  destruct a as [m p s | an obj c sp r i]; [|done].
  simpl. intros Hreq.
  destruct (models w !! m) as [id|] eqn:Hm.
  - by rewrite !(tryAction_passed _ _ _ _ (executeAction_load_cached _ _ p s _ _ Hm)).
  - by rewrite !(tryAction_caught _ _ _ _ _ (executeAction_load_unavailable _ _ p s _ Hm Hreq)).
Qed.

Lemma advance_settled a rest w :
  EventLoop.requested a w = None →
  EventLoop.advance (a :: rest) w =
    EventLoop.advance rest (tryAction EventLoop.unasked a w).2.
Proof. intros Hreq. destruct a; cbn [EventLoop.advance]; [by rewrite Hreq | done]. Qed.

Lemma advance_requested m p s rest w url :
  EventLoop.requested (LoadModelAction m p s) w = Some url →
  EventLoop.advance (LoadModelAction m p s :: rest) w =
    (set_requests S w,
     Some (EventLoop.mkRequest (requests w) m url (obj_or p origin) (num_or s 1%Q) rest)).
Proof. intros Hreq. cbn [EventLoop.advance]. by rewrite Hreq. Qed.

Lemma requested_load a w url :
  EventLoop.requested a w = Some url →
  ∃ m p s, a = LoadModelAction m p s ∧ models w !! m = None ∧
           availableModels !! m = Some url.
Proof.
  destruct a as [m p s | an obj c sp r i]; [|done]. simpl.
  destruct (models w !! m) eqn:Hm; [done|]. intros Ha. by exists m, p, s.
Qed.

(** Served at once, request by request, with the outcomes [fetch] gives,
    the suspended executor leaves the world the turns above compute. *)
Lemma serve_advance fetch acts fuel w :
  (length acts ≤ fuel)%nat →
  EventLoop.serve fetch fuel (EventLoop.advance acts w) =
    (executeSceneActions fetch acts w).2.
Proof.
  revert fuel w. induction acts as [|a acts IH]; intros fuel w Hlen.
  { by destruct fuel. }
  rewrite executeSceneActions_cons.
  destruct (EventLoop.requested a w) as [url|] eqn:Hreq.
  - destruct (requested_load _ _ _ Hreq) as (m & p & s & -> & Hm & Ha).
    rewrite (advance_requested _ _ _ _ _ _ Hreq).
    destruct fuel as [|fuel]; [simpl in Hlen; lia|].
    cbn [EventLoop.serve fst snd EventLoop.rq_number EventLoop.rq_url].
    unfold EventLoop.settle. cbn [EventLoop.rq_rest].
    rewrite IH by (simpl in Hlen; lia). f_equal. f_equal.
    destruct (fetch (requests w) url) eqn:Hf.
    + by rewrite (tryAction_passed _ _ _ _ (executeAction_load_loaded _ _ p s _ _ Hm Ha Hf)).
    + by rewrite (tryAction_caught _ _ _ _ _ (executeAction_load_failed _ _ p s _ _ Hm Ha Hf)).
  - rewrite (advance_settled _ _ _ Hreq), (tryAction_unasked fetch _ _ Hreq).
    apply IH. simpl in Hlen. lia.
Qed.

Lemma loop_handleAIResponse_bundle b w :
  EventLoop.handleAIResponse (Some b) w =
    (Normal (EventLoop.advance (actions (response b)) (narrate (narration (response b)) w)).2,
     show_quiz (quiz (response b))
       (EventLoop.advance (actions (response b)) (narrate (narration (response b)) w)).1).
Proof.
  unfold EventLoop.handleAIResponse, EventLoop.launch, narrate, show_quiz, addChatMessage,
    VoiceSystem.speak, displayQuiz, QuizEngine.createQuiz.
  run_m. destruct (isVoiceEnabled w); simpl; by destruct (quiz (response b)).
Qed.

Lemma advance_show_quiz acts q w :
  EventLoop.advance acts (show_quiz q w) =
    (show_quiz q (EventLoop.advance acts w).1, (EventLoop.advance acts w).2).
Proof.
  revert w. induction acts as [|a acts IH]; intros w; [done|].
  assert (Hsame : EventLoop.requested a (show_quiz q w) = EventLoop.requested a w)
    by (destruct a, q; reflexivity).
  destruct (EventLoop.requested a w) as [url|] eqn:Hreq.
  - destruct (requested_load _ _ _ Hreq) as (m & p & s & -> & _ & _).
    rewrite (advance_requested _ _ _ _ _ _ Hreq), (advance_requested _ _ _ _ _ _ Hsame).
    by destruct q.
  - rewrite (advance_settled _ _ _ Hreq), (advance_settled _ _ _ Hsame).
    rewrite tryAction_show_quiz. apply IH.
Qed.

(** The turns of [UIManager] above are the turns of the event loop with
    every request answered, with the outcome [fetch] gives, before anything
    else happens. *)
Lemma served_reply fetch b w fuel :
  (length (actions (response b)) ≤ fuel)%nat →
  EventLoop.serve fetch fuel
    ((EventLoop.handleAIResponse (Some b) w).2,
     match (EventLoop.handleAIResponse (Some b) w).1 with
     | Normal pending => pending
     | Throw _ => None
     end) =
  (handleAIResponse fetch (Some b) w).2.
Proof.
  intros Hlen.
  rewrite loop_handleAIResponse_bundle, handleAIResponse_quiz_first. cbn [fst snd].
  rewrite <- (serve_advance fetch _ fuel _ Hlen), advance_show_quiz. done.
Qed.

Lemma loop_handleAIResponse_normal reply w :
  ∃ pending, (EventLoop.handleAIResponse reply w).1 = Normal pending.
Proof.
  destruct reply as [b|]; [|by exists None].
  rewrite loop_handleAIResponse_bundle. by eexists.
Qed.

Lemma loop_loadTopic_registered registry topicId t w :
  registry !! topicId = Some t →
  EventLoop.loadTopic registry topicId w =
    EventLoop.handleAIResponse (processQuery registry topicId "explain")
      (set_chat (λ l, l ++ [mkChat "AI Teacher" ("Loading " +:+ name t +:+ " lesson...") "ai"])
         (cleared (set_currentTopic (Some topicId) w))).
Proof.
  intros Ht. unfold EventLoop.loadTopic. rewrite Ht.
  unfold mbind, M_bind at 1. unfold modify at 1.
  unfold mbind, M_bind at 1. rewrite clearScene_cleared.
  unfold mbind, M_bind at 1. unfold mret, M_ret at 1.
  unfold mbind, M_bind at 1. unfold addChatMessage at 1. unfold modify at 1.
  unfold try_catch.
  match goal with
  | |- context [EventLoop.handleAIResponse ?r ?w0] =>
      destruct (loop_handleAIResponse_normal r w0) as [pending Hn];
      destruct (EventLoop.handleAIResponse r w0) as [[?|err] w1];
      simpl in *; [done | discriminate]
  end.
Qed.

Lemma loop_loadTopic_unknown registry topicId w :
  registry !! topicId = None →
  EventLoop.loadTopic registry topicId w =
    (Throw (TypeError "Cannot read properties of undefined (reading 'name')"),
     cleared (set_currentTopic (Some topicId) w)).
Proof.
  intros Ht. unfold EventLoop.loadTopic. rewrite Ht.
  unfold mbind, M_bind at 1. unfold modify at 1.
  unfold mbind, M_bind at 1. by rewrite clearScene_cleared.
Qed.

Lemma loop_handleUserInput_asked registry text w :
  text ≠ "" →
  EventLoop.handleUserInput registry text w =
    EventLoop.handleAIResponse
      (processQuery registry (default "null" (currentTopic w)) text)
      (set_chat (λ l, l ++ [mkChat "You" text "user"]) w).
Proof.
  intros Ht. unfold EventLoop.handleUserInput. rewrite decide_False by done.
  unfold mbind, M_bind at 1. unfold addChatMessage at 1. unfold modify at 1.
  unfold mbind, M_bind at 1. unfold gets at 1. unfold try_catch. simpl.
  match goal with
  | |- context [EventLoop.handleAIResponse ?r ?w0] =>
      destruct (loop_handleAIResponse_normal r w0) as [pending Hn];
      destruct (EventLoop.handleAIResponse r w0) as [[?|err] w1];
      simpl in *; [done | discriminate]
  end.
Qed.

(** A property of the scene that the loop body, [clearScene] and the
    installation of a model that is not cached keep is kept by every task of
    a schedule in which the user waits, and in such a schedule at most one
    request is in flight. *)
Section Schedules.

Variable registry : gmap string Topic.
Variable P : World → Prop.

Hypothesis P_ext : ∀ w w',
  heap w' = heap w → children w' = children w → models w' = models w →
  animations w' = animations w → P w → P w'.
Hypothesis P_action : ∀ a w, P w → P (tryAction EventLoop.unasked a w).2.
Hypothesis P_cleared : ∀ w, P w → P (cleared w).
Hypothesis P_loaded : ∀ m p s w, models w !! m = None → P w → P (loaded m p s w).

Lemma advance_invariant acts w :
  P w →
  P (EventLoop.advance acts w).1 ∧
  ∀ r, (EventLoop.advance acts w).2 = Some r →
       models (EventLoop.advance acts w).1 !! EventLoop.rq_model r = None.
Proof.
  revert w. induction acts as [|a acts IH]; intros w Hw; [by split|].
  destruct (EventLoop.requested a w) as [url|] eqn:Hreq.
  - destruct (requested_load _ _ _ Hreq) as (m & p & s & -> & Hm & Ha).
    rewrite (advance_requested _ _ _ _ _ _ Hreq). simpl. split.
    + eapply P_ext; [| | | | exact Hw]; reflexivity.
    + by intros r [= <-].
  - rewrite (advance_settled _ _ _ Hreq). by apply IH, P_action.
Qed.

Lemma settle_invariant ok r w :
  P w → models w !! EventLoop.rq_model r = None →
  P (EventLoop.settle ok r w).1 ∧
  ∀ r', (EventLoop.settle ok r w).2 = Some r' →
        models (EventLoop.settle ok r w).1 !! EventLoop.rq_model r' = None.
Proof.
  intros Hw Hm. unfold EventLoop.settle. apply advance_invariant.
  destruct ok.
  - eapply (P_ext (loaded (EventLoop.rq_model r) (EventLoop.rq_position r)
                     (EventLoop.rq_scale r) w)); [| | | | by apply P_loaded]; reflexivity.
  - eapply P_ext; [| | | | exact Hw]; reflexivity.
Qed.

Lemma reply_invariant reply w :
  P w →
  P (EventLoop.handleAIResponse reply w).2 ∧
  EventLoop.orderly
    (EventLoop.mkLoop (EventLoop.handleAIResponse reply w).2
       (EventLoop.pending_of (EventLoop.handleAIResponse reply w).1)).
Proof.
  intros Hw. destruct reply as [b|]; [|by split].
  rewrite loop_handleAIResponse_bundle. cbn [fst snd].
  destruct (narrate_scene (narration (response b)) w) as (Hh & Hc & Hm & Ha & _).
  destruct (advance_invariant (actions (response b)) (narrate (narration (response b)) w))
    as [Hadv Hreq]; [by eapply P_ext|].
  destruct (show_quiz_scene (quiz (response b))
              (EventLoop.advance (actions (response b))
                 (narrate (narration (response b)) w)).1) as (Qh & Qc & Qm & Qa & _).
  split; [by eapply P_ext|].
  unfold EventLoop.orderly. cbn [EventLoop.inflight EventLoop.world EventLoop.pending_of].
  destruct (EventLoop.advance _ _).2 as [r|] eqn:Hr; [|done].
  rewrite Qm. by apply Hreq.
Qed.

Lemma step_invariant task l :
  match task with
  | EventLoop.Click _ | EventLoop.Send _ => EventLoop.inflight l = []
  | EventLoop.Answer _ _ => True
  end →
  EventLoop.orderly l → P (EventLoop.world l) →
  P (EventLoop.world (EventLoop.step registry task l)) ∧
  EventLoop.orderly (EventLoop.step registry task l).
Proof.
  intros Hquiet Hord Hw. destruct task as [topicId | text | i ok]; cbn [EventLoop.step].
  - rewrite Hquiet. cbn [app EventLoop.world].
    destruct (registry !! topicId) as [t|] eqn:Ht.
    + rewrite (loop_loadTopic_registered _ _ _ _ Ht). apply reply_invariant.
      eapply P_ext; [| | | | apply P_cleared; eapply P_ext; [| | | | exact Hw]]; reflexivity.
    + rewrite (loop_loadTopic_unknown _ _ _ Ht). split; [|done]. cbn [snd].
      apply P_cleared. eapply P_ext; [| | | | exact Hw]; reflexivity.
  - rewrite Hquiet. cbn [app EventLoop.world].
    destruct (decide (text = "")) as [->|Hne]; [by split|].
    rewrite (loop_handleUserInput_asked _ _ _ Hne). apply reply_invariant.
    eapply P_ext; [| | | | exact Hw]; reflexivity.
  - unfold EventLoop.orderly in Hord.
    destruct (EventLoop.inflight l) as [|r [|r' rest]] eqn:Hin; [|  | done].
    { simpl. split; [done|]. unfold EventLoop.orderly. by rewrite Hin. }
    destruct i as [|i]; simpl.
    2:{ split; [done|]. unfold EventLoop.orderly. by rewrite Hin. }
    destruct (settle_invariant ok r (EventLoop.world l) Hw Hord) as [Hs Hreq].
    split; [done|]. unfold EventLoop.orderly. simpl.
    destruct (EventLoop.settle ok r (EventLoop.world l)).2 as [r'|] eqn:Hr; [|done].
    by apply Hreq.
Qed.

Lemma schedule_invariant tasks l :
  EventLoop.patient registry tasks l →
  EventLoop.orderly l → P (EventLoop.world l) →
  P (EventLoop.world (EventLoop.run registry tasks l)) ∧
  EventLoop.orderly (EventLoop.run registry tasks l).
Proof.
  revert l. induction tasks as [|task tasks IH]; intros l Hp Hord Hw; [by split|].
  destruct Hp as [Hquiet Hp]. simpl.
  destruct (step_invariant task l Hquiet Hord Hw) as [Hw' Hord'].
  by apply IH.
Qed.

End Schedules.

Lemma scene_ok_schedule registry tasks :
  EventLoop.patient registry tasks EventLoop.start →
  scene_ok (EventLoop.world (EventLoop.run registry tasks EventLoop.start)) ∧
  EventLoop.orderly (EventLoop.run registry tasks EventLoop.start).
Proof.
  intros Hp. apply (schedule_invariant registry scene_ok); try done.
  - intros w w' Hh Hc Hm _. by apply scene_ok_ext.
  - intros a w. apply tryAction_scene_ok.
  - apply scene_ok_cleared.
  - intros m p s w. apply scene_ok_loaded.
  - apply scene_ok_init.
Qed.

(** X6: in every world reached from the initial one by a schedule in which
    the user waits (every click on a topic and every text comes when no
    asset request is in flight), over any registry and whatever the loader
    answers, at most one request is in flight and the scene graph agrees
    with the model cache: the scene shows exactly one object for each cached
    key, the cached one, and no object of any other key. *)
Theorem scene_consistent_when_user_waits (registry : gmap string Topic)
    (tasks : list EventLoop.Task) (key : string) :
  EventLoop.patient registry tasks EventLoop.start →
  let l := EventLoop.run registry tasks EventLoop.start in
  let w := EventLoop.world l in
  (length (EventLoop.inflight l) ≤ 1)%nat ∧
  scene_ok w ∧
  instances_of key w = match models w !! key with Some model => [model] | None => [] end.
Proof.
  intros Hp l w.
  destruct (scene_ok_schedule registry tasks Hp) as [Hok Hord].
  fold l in Hord. fold l w in Hok.
  split; [|split; [done|]].
  - unfold EventLoop.orderly in Hord.
    destruct (EventLoop.inflight l) as [|r [|r' rest]]; simpl; [lia | lia | done].
  - destruct (models w !! key) as [model|] eqn:Hk.
    + by apply instances_of_cached.
    + by apply instances_of_uncached.
Qed.

(** The solar system, a question about its scale, then the volcano, the
    loader answering each request before the user goes on. *)
Lemma scene_consistent_when_user_waits_witness :
  let tasks := [EventLoop.Click "solar-system"; EventLoop.Answer 0 true;
                EventLoop.Answer 0 false; EventLoop.Send "what about the scale";
                EventLoop.Answer 0 true; EventLoop.Click "volcano";
                EventLoop.Answer 0 true] in
  let w := EventLoop.world (EventLoop.run topics tasks EventLoop.start) in
  EventLoop.patient topics tasks EventLoop.start ∧
  scene_ok w ∧ instances_of "volcano" w = [4] ∧ instances_of "sun" w = [].
Proof.
  intros tasks w.
  assert (Hp : EventLoop.patient topics tasks EventLoop.start)
    by (vm_compute; repeat split; reflexivity).
  split; [exact Hp|].
  destruct (scene_consistent_when_user_waits topics tasks "volcano" Hp) as (_ & Hok & Hv).
  destruct (scene_consistent_when_user_waits topics tasks "sun" Hp) as (_ & _ & Hs).
  split; [exact Hok|]. subst w. split.
  - rewrite Hv. vm_compute. reflexivity.
  - rewrite Hs. vm_compute. reflexivity.
Defined.

Lemma topics_own_registry : own_registry topics.
Proof.
  assert (H : map_Forall (λ _ t, map_Forall (λ _ r, own_template r = true) (responses t)) topics)
    by (apply (bool_decide_unpack _); vm_compute; reflexivity).
  intros topicId t i r Ht Hr. specialize (H topicId t Ht i r Hr).
  unfold own_template in H. rewrite forallb_forall in H.
  apply Forall_forall. intros a Ha. unfold own_action.
  apply negb_true_iff, H. by apply list_elem_of_In.
Qed.

(** X7: over a registry whose actions name no inherited property as their
    key, in every world reached from the initial one by a schedule in which
    the user waits, each registered animation drives a model that is cached
    and shown in the scene; no animation survives the removal of its
    object. *)
Theorem animations_drive_shown_models (registry : gmap string Topic)
    (tasks : list EventLoop.Task) :
  own_registry registry →
  EventLoop.patient registry tasks EventLoop.start →
  let w := EventLoop.world (EventLoop.run registry tasks EventLoop.start) in
  Forall (λ a, anim_target a ∈ children w ∧
               ∃ k, models w !! k = Some (anim_target a)) (animations w).
Proof.
  intros _ Hp w.
  destruct (schedule_invariant registry (λ w, scene_ok w ∧ animations_ok w)) with
    (tasks := tasks) (l := EventLoop.start) as [[Hok Han] _]; try done.
  - intros w1 w2 Hh Hc Hm Ha [H1 H2]. split; [by eapply scene_ok_ext|].
    intros a. rewrite Ha, Hm. apply H2.
  - intros a w1 [H1 H2]. split; [by apply tryAction_scene_ok|].
    apply (action_step_animations_ok EventLoop.unasked a w1); [apply tryAction_step | done].
  - intros w1 [H1 _]. split; [by apply scene_ok_cleared|].
    intros a Ha. by apply elem_of_nil in Ha.
  - intros m p s w1 Hm [H1 H2]. split; [by apply scene_ok_loaded|].
    intros a Ha. destruct (H2 a Ha) as (k & Hk). exists k. simpl.
    rewrite lookup_insert_ne; [done | congruence].
  - split; [apply scene_ok_init|]. intros a Ha. by apply elem_of_nil in Ha.
  - apply Forall_forall. intros a Ha.
    destruct (Han a Ha) as (k & Hk). split; [|by exists k].
    by destruct (ok_shown _ Hok _ _ Hk).
Qed.

(** The solar system with both assets loaded: the one animation is the
    orbit of the earth, object 3. *)
Lemma animations_drive_shown_models_witness :
  let tasks := [EventLoop.Click "solar-system"; EventLoop.Answer 0 true;
                EventLoop.Answer 0 true] in
  let w := EventLoop.world (EventLoop.run topics tasks EventLoop.start) in
  animations w = [OrbitAnimation 3 origin 0 3%Q 0.01%Q] ∧
  Forall (λ a, anim_target a ∈ children w ∧
               ∃ k, models w !! k = Some (anim_target a)) (animations w).
Proof.
  intros tasks w. split; [vm_compute; reflexivity|].
  apply (animations_drive_shown_models topics tasks topics_own_registry).
  vm_compute. repeat split; reflexivity.
Defined.

(** ** How turns end *)

Lemma turn_console_lines fetch registry e w :
  scene_ok w →
  ∃ lines, console (turn fetch registry e w).2 = console w ++ lines ∧
           Forall is_load_line lines.
Proof.
  intros Hok.
  assert (Hreply : ∀ reply w0, scene_ok w0 →
            ∃ lines, console (handleAIResponse fetch reply w0).2 = console w0 ++ lines ∧
                     Forall is_load_line lines).
  { intros [b|] w0 Hw0; [|exists []; by rewrite app_nil_r].
    rewrite handleAIResponse_bundle. simpl.
    destruct (narrate_scene (narration (response b)) w0) as (Hh & Hc & Hm & _ & _ & Hl).
    destruct (show_quiz_scene (quiz (response b))
                (executeSceneActions fetch (actions (response b))
                   (narrate (narration (response b)) w0)).2) as (_ & _ & _ & _ & _ & Ql).
    rewrite Ql, <- Hl. apply executor_console_lines. by eapply scene_ok_ext. }
  destruct e as [topicId | text]; simpl.
  - destruct (registry !! topicId) as [t|] eqn:Ht.
    + rewrite (loadTopic_registered _ _ _ _ _ Ht).
      match goal with
      | |- context [handleAIResponse fetch ?r ?w0] =>
          destruct (Hreply r w0) as (lines & Hl & Hall)
      end.
      * eapply scene_ok_ext;
          [| | | apply scene_ok_cleared; eapply scene_ok_ext; [| | | exact Hok]];
          reflexivity.
      * exists lines. by rewrite Hl.
    + rewrite (loadTopic_unknown _ _ _ _ Ht). exists []. by rewrite app_nil_r.
  - destruct (decide (text = "")) as [->|Hne]; [exists []; by rewrite app_nil_r|].
    rewrite (handleUserInput_asked _ _ _ _ Hne).
    match goal with
    | |- context [handleAIResponse fetch ?r ?w0] =>
        destruct (Hreply r w0) as (lines & Hl & Hall)
    end.
    + eapply scene_ok_ext; [| | | exact Hok]; reflexivity.
    + exists lines. by rewrite Hl.
Qed.

(** X8: for topic ids that are not inherited property names, a user input
    never aborts its turn, whatever the text and the registry, and a topic
    switch aborts exactly when the topic is not registered.  Over any history
    of such turns from the initial world, and a registry whose actions name
    no inherited property as their key either, the console holds nothing but
    lines of failed loads: the [catch] clauses of [loadTopic] and
    [handleUserInput] never run. *)
Theorem turns_end_normally (fetch : nat → string → bool)
    (registry : gmap string Topic) :
  (∀ text w, own_topic (currentTopic w) →
     (handleUserInput fetch registry text w).1 = Normal tt) ∧
  (∀ topicId w, inherited_key topicId = false →
     (loadTopic fetch registry topicId w).1 =
       match registry !! topicId with
       | Some _ => Normal tt
       | None => Throw (TypeError "Cannot read properties of undefined (reading 'name')")
       end) ∧
  (∀ history, own_registry registry → own_topics history →
     Forall is_load_line (console (run fetch registry history init))).
Proof.
  split; [|split].
  - intros text w _. destruct (decide (text = "")) as [->|Hne]; [done|].
    rewrite (handleUserInput_asked _ _ _ _ Hne). apply handleAIResponse_normal.
  - intros topicId w _. destruct (registry !! topicId) as [t|] eqn:Ht.
    + rewrite (loadTopic_registered _ _ _ _ _ Ht). apply handleAIResponse_normal.
    + by rewrite (loadTopic_unknown _ _ _ _ Ht).
  - intros history _ _.
    apply (run_invariant fetch registry
             (λ w, scene_ok w ∧ Forall is_load_line (console w)));
      [|split; [apply scene_ok_init | constructor]].
    intros e w [Hok Hall]. split; [by apply turn_scene_ok|].
    destruct (turn_console_lines fetch registry e w Hok) as (lines & -> & Hl).
    by apply Forall_app.
Qed.

(** The volcano picked with its asset unreachable, a greeting, then a topic
    that does not exist. *)
Lemma turns_end_normally_witness :
  let fetch := λ (_ : nat) (_ : string), false in
  let history := [SwitchTopic "volcano"; UserInput "hello"; SwitchTopic "mars-colony"] in
  Forall is_load_line (console (run fetch topics history init)) ∧
  length (console (run fetch topics history init)) = 4 ∧
  (loadTopic fetch topics "mars-colony" init).1 =
    Throw (TypeError "Cannot read properties of undefined (reading 'name')").
Proof.
  intros fetch history.
  destruct (turns_end_normally fetch topics) as (_ & Hswitch & Hconsole).
  split; [|split].
  - apply Hconsole; [apply topics_own_registry | repeat constructor].
  - vm_compute. reflexivity.
  - rewrite (Hswitch "mars-colony" init); [|reflexivity]. vm_compute. reflexivity.
Defined.

(** ** Questions and their answers *)

(** X9: a switch to a topic that is not registered (nor an inherited
    property name) leaves that topic current, so every question asked afterwards gets no reply: it is echoed in
    the chat and nothing else changes, until a registered topic is picked. *)
Theorem questions_after_unknown_topic (fetch : nat → string → bool)
    (registry : gmap string Topic) (topicId text : string) (w : World) :
  inherited_key topicId = false →
  registry !! topicId = None →
  text ≠ "" →
  let w1 := (loadTopic fetch registry topicId w).2 in
  currentTopic w1 = Some topicId ∧
  handleUserInput fetch registry text w1 =
    (Normal tt, set_chat (λ l, l ++ [mkChat "You" text "user"]) w1).
Proof.
  intros _ Ht Hne w1. subst w1. rewrite (loadTopic_unknown _ _ _ _ Ht). simpl.
  split; [done|].
  rewrite (handleUserInput_asked _ _ _ _ Hne). simpl.
  unfold processQuery. by rewrite Ht.
Qed.

(** "mars-colony" picked on the initial scene, then a question. *)
Lemma questions_after_unknown_topic_witness :
  let fetch := λ (_ : nat) (_ : string), true in
  let w1 := (loadTopic fetch topics "mars-colony" init).2 in
  let w2 := (handleUserInput fetch topics "explain this" w1).2 in
  chat w2 = [mkChat "You" "explain this" "user"] ∧ utterances w2 = [] ∧ children w2 = [0; 1].
Proof.
  intros fetch w1 w2.
  destruct (questions_after_unknown_topic fetch topics "mars-colony" "explain this" init
              ltac:(reflexivity) ltac:(by vm_compute) ltac:(done)) as (_ & H).
  fold w1 in H. subst w2. rewrite H. vm_compute. repeat split; reflexivity.
Defined.

(** X10: a question is answered from the current topic only.  With a
    registered topic current, a non-empty input adds to the chat the user's
    text followed by one reply, the narration of a template of that topic or
    of the fallback; the narration is spoken when the voice is on. *)
Theorem question_answered_from_current_topic (fetch : nat → string → bool)
    (registry : gmap string Topic) (topicId text : string) (t : Topic) (w : World) :
  registry !! topicId = Some t →
  currentTopic w = Some topicId →
  text ≠ "" →
  ∃ r, ((∃ i, responses t !! i = Some r) ∨ r = fallbackResponse) ∧
       processQuery registry topicId text =
         Some (mkBundle topicId (match responses t !! detectIntent topicId text with
                                 | Some _ => detectIntent topicId text
                                 | None => "explain"
                                 end) r) ∧
       let w' := (handleUserInput fetch registry text w).2 in
       chat w' = chat w ++ [mkChat "You" text "user"; mkChat "AI Teacher" (narration r) "ai"] ∧
       utterances w' = utterances w ++ (if isVoiceEnabled w then [narration r] else []) ∧
       currentTopic w' = Some topicId.
Proof.
  intros Ht Hcur Hne.
  assert (Hq : ∃ r, ((∃ i, responses t !! i = Some r) ∨ r = fallbackResponse) ∧
             processQuery registry topicId text =
               Some (mkBundle topicId (match responses t !! detectIntent topicId text with
                                       | Some _ => detectIntent topicId text
                                       | None => "explain"
                                       end) r)).
  { unfold processQuery. rewrite Ht.
    destruct (responses t !! detectIntent topicId text) as [r|] eqn:Hr.
    - exists r. split; [left; by eexists | done].
    - destruct (responses t !! "explain") as [r|] eqn:He.
      + exists r. split; [left; by eexists | done].
      + exists fallbackResponse. split; [by right | done]. }
  destruct Hq as (r & Hfrom & Hq). exists r. split; [done|]. split; [done|].
  cbn zeta. rewrite (handleUserInput_asked _ _ _ _ Hne), Hcur. simpl. rewrite Hq.
  rewrite handleAIResponse_bundle. simpl.
  set (w0 := narrate (narration r) (set_chat (λ l, l ++ [mkChat "You" text "user"]) w)).
  pose proof (executeSceneActions_extends fetch (actions r) w0) as Hext.
  destruct (quiz r); simpl;
    rewrite (ext_chat _ _ Hext), (ext_utterances _ _ Hext), (ext_topic _ _ Hext);
    subst w0; unfold narrate, VoiceSystem.speak; run_m;
    destruct (isVoiceEnabled w); simpl; rewrite <- ?app_assoc, ?app_nil_r; done.
Qed.

(** The solar system introduced, then asked about its scale. *)
Lemma question_answered_from_current_topic_witness :
  let fetch := λ (_ : nat) (_ : string), true in
  let w := (loadTopic fetch topics "solar-system" init).2 in
  ∃ r, responses solar_system !! "scale" = Some r ∧
       chat (handleUserInput fetch topics "How big is the SCALE?" w).2 =
         chat w ++ [mkChat "You" "How big is the SCALE?" "user";
                    mkChat "AI Teacher" (narration r) "ai"].
Proof.
  intros fetch w.
  destruct (question_answered_from_current_topic fetch topics "solar-system"
              "How big is the SCALE?" solar_system w
              ltac:(vm_compute; reflexivity) ltac:(vm_compute; reflexivity) ltac:(done))
    as (r & _ & Hq & Hchat & _).
  exists r. split; [|exact Hchat].
  clear Hchat. vm_compute in Hq. injection Hq as <-. vm_compute. reflexivity.
Defined.

(** The registry check: every topic has an [explain] template. *)
Lemma registry_has_explain :
  map_Forall (λ _ t, is_Some (responses t !! "explain")) topics.
Proof. apply (bool_decide_unpack _). vm_compute. reflexivity. Qed.

(** X11: over the registry the constructor builds, the fallback is never
    needed: for every registered topic and every query [processQuery] returns
    a template of that topic, filed under the intent it reports, which is the
    detected intent or [explain]. *)
Theorem registry_always_answers (topicId query : string) (t : Topic) :
  topics !! topicId = Some t →
  ∃ i r, processQuery topics topicId query = Some (mkBundle topicId i r) ∧
         responses t !! i = Some r ∧
         (i = detectIntent topicId query ∨ i = "explain").
Proof.
  intros Ht. unfold processQuery. rewrite Ht.
  destruct (responses t !! detectIntent topicId query) as [r|] eqn:Hr.
  - exists (detectIntent topicId query), r. eauto.
  - destruct (registry_has_explain topicId t Ht) as [r He].
    exists "explain", r. rewrite He. eauto.
Qed.

(** An eruption asked about in the heart topic is answered by the heart's
    introduction. *)
Lemma registry_always_answers_witness :
  ∃ r, processQuery topics "heart-anatomy" "tell me about the eruption" =
         Some (mkBundle "heart-anatomy" "explain" r) ∧
       responses heart_anatomy !! "explain" = Some r.
Proof.
  destruct (registry_always_answers "heart-anatomy" "tell me about the eruption"
              heart_anatomy ltac:(vm_compute; reflexivity)) as (i & r & Hq & Hr & Hi).
  destruct Hi as [-> | ->]; [vm_compute in Hr; discriminate Hr|].
  exists r. split; [exact Hq | exact Hr].
Defined.

(** ** Intent detection *)

(** X12: the detected intent is one of the five keys, and the three topic
    intents are gated: [scale] is only ever detected in solar-system,
    [function] in heart-anatomy and [eruption] in volcano; in any other topic,
    the registered ones included, their keywords lead to [unknown] unless the
    query also says "explain". *)
Theorem intents_are_gated (topicId query : string) :
  detectIntent topicId query ∈ ["explain"; "scale"; "function"; "eruption"; "unknown"] ∧
  (detectIntent topicId query = "scale" → topicId = "solar-system") ∧
  (detectIntent topicId query = "function" → topicId = "heart-anatomy") ∧
  (detectIntent topicId query = "eruption" → topicId = "volcano") ∧
  (topicId ≠ "solar-system" → topicId ≠ "heart-anatomy" → topicId ≠ "volcano" →
   detectIntent topicId query = "explain" ∨ detectIntent topicId query = "unknown").
Proof.
  unfold detectIntent.
  destruct (includes (toLowerCase query) "explain");
    [repeat split; try done; [set_solver | by left]|].
  destruct (includes (toLowerCase query) "scale"),
           (includes (toLowerCase query) "function"),
           (includes (toLowerCase query) "eruption"); simpl;
    repeat case_bool_decide; subst;
    repeat split; try done; try set_solver; try (by right).
Qed.

(** "scale" asked in a topic outside the registry. *)
Lemma intents_are_gated_witness :
  detectIntent "mars-colony" "what is the scale?" = "explain" ∨
  detectIntent "mars-colony" "what is the scale?" = "unknown".
Proof.
  destruct (intents_are_gated "mars-colony" "what is the scale?") as (_ & _ & _ & _ & H).
  apply H; discriminate.
Defined.

(** X13: matching ignores letter case and word boundaries, and "explain"
    has priority.  The intent of a query is that of its lower-cased form, and
    a query holding "explain" in any mix of cases, anywhere, even inside a
    longer word and beside another keyword, is resolved to [explain] in every
    topic. *)
Theorem explain_matches_anywhere (topicId : string) :
  (∀ query, detectIntent topicId (toLowerCase query) = detectIntent topicId query) ∧
  (∀ pre word post,
     toLowerCase word = "explain" →
     detectIntent topicId (pre +:+ word +:+ post) = "explain").
Proof.
  split.
  - intros query. unfold detectIntent. by rewrite toLowerCase_idemp.
  - intros pre word post Hw. unfold detectIntent.
    rewrite !toLowerCase_append, Hw.
    replace (includes (toLowerCase pre +:+ "explain" +:+ toLowerCase post) "explain")
      with true; [done|].
    symmetry. apply includes_substring. by eexists _, _.
Qed.

(** "UNEXPLAINED scale" in the solar system is a request to explain. *)
Lemma explain_matches_anywhere_witness :
  detectIntent "solar-system" "UNEXPLAINED scale" = "explain".
Proof.
  destruct (explain_matches_anywhere "solar-system") as (_ & H).
  apply (H "UN" "EXPLAIN" "ED scale"). vm_compute. reflexivity.
Defined.

(** ** The voice switch *)

Lemma tryAction_voice fetch a f g w :
  tryAction fetch a (set_isVoiceEnabled f (set_utterances g w)) =
    (Normal tt, set_isVoiceEnabled f (set_utterances g (tryAction fetch a w).2)).
Proof.
  destruct a as [m p s | an obj c sp r i].
  - unfold tryAction, try_catch, executeAction, loadModel, new_object. run_m.
    destruct (models w !! m); simpl; [done|].
    destruct (availableModels !! m) as [url|]; simpl; [|done].
    destruct (fetch (requests w) url); simpl; done.
  - unfold tryAction, try_catch, executeAction, createOrbitAnimation,
      createBeatingAnimation, addAnimation. run_m.
    destruct (models w !! obj) as [id|]; simpl; [|done].
    repeat (case_decide; simpl; try done);
      destruct (heap w !! id); simpl; done.
Qed.

Lemma executeSceneActions_voice fetch acts f g w :
  executeSceneActions fetch acts (set_isVoiceEnabled f (set_utterances g w)) =
    (Normal tt,
     set_isVoiceEnabled f (set_utterances g (executeSceneActions fetch acts w).2)).
Proof.
  revert w. induction acts as [|a acts IH]; intros w.
  { by destruct w. }
  rewrite !executeSceneActions_cons, tryAction_voice. simpl. apply IH.
Qed.

(** X14: the voice switch only decides whether the narration is spoken.  A
    reply handled with the voice off leaves exactly the world it leaves with
    the voice on, but for the switch and for the spoken texts, which are
    unchanged: chat, scene, animations, quiz and console are the same.
    Toggling the voice twice restores the world and returns the original
    setting. *)
Theorem voice_only_silences (fetch : nat → string → bool)
    (reply : option ResponseBundle) (w : World) :
  let off := (handleAIResponse fetch reply (set_isVoiceEnabled (λ _, false) w)).2 in
  let on := (handleAIResponse fetch reply (set_isVoiceEnabled (λ _, true) w)).2 in
  off = set_isVoiceEnabled (λ _, false) (set_utterances (λ _, utterances w) on) ∧
  utterances off = utterances w ∧
  utterances on =
    utterances w ++ match reply with Some b => [narration (response b)] | None => [] end ∧
  (VoiceSystem.toggleVoice;; VoiceSystem.toggleVoice) w = (Normal (isVoiceEnabled w), w).
Proof.
  assert (Hoff : ∀ b,
    (handleAIResponse fetch (Some b) (set_isVoiceEnabled (λ _, false) w)).2 =
    set_isVoiceEnabled (λ _, false) (set_utterances (λ l, l)
      (show_quiz (quiz (response b))
         (executeSceneActions fetch (actions (response b))
            (set_chat (λ l, l ++ [mkChat "AI Teacher" (narration (response b)) "ai"]) w)).2))).
  { intros b. rewrite handleAIResponse_bundle. unfold narrate, VoiceSystem.speak. run_m.
    change (set_chat ?f (set_isVoiceEnabled ?g w))
      with (set_isVoiceEnabled g (set_utterances (λ l, l) (set_chat f w))).
    rewrite executeSceneActions_voice. simpl. by destruct (quiz (response b)). }
  assert (Hon : ∀ b,
    (handleAIResponse fetch (Some b) (set_isVoiceEnabled (λ _, true) w)).2 =
    set_isVoiceEnabled (λ _, true)
      (set_utterances (λ l, l ++ [narration (response b)])
         (show_quiz (quiz (response b))
            (executeSceneActions fetch (actions (response b))
               (set_chat (λ l, l ++ [mkChat "AI Teacher" (narration (response b)) "ai"]) w)).2))).
  { intros b. rewrite handleAIResponse_bundle. unfold narrate, VoiceSystem.speak. run_m.
    change (set_utterances ?h (set_chat ?f (set_isVoiceEnabled ?g w)))
      with (set_isVoiceEnabled g (set_utterances h (set_chat f w))).
    rewrite executeSceneActions_voice. simpl. by destruct (quiz (response b)). }
  intros off on. subst off on. destruct reply as [b|].
  - rewrite Hoff, Hon.
    set (w1 := show_quiz _ _).
    assert (Hu : utterances w1 = utterances w).
    { subst w1. destruct (quiz (response b)); simpl;
        by rewrite (ext_utterances _ _ (executeSceneActions_extends fetch _ _)). }
    repeat split.
    + destruct w1. simpl in *. unfold set_isVoiceEnabled, set_utterances. simpl. by rewrite Hu.
    + simpl. exact Hu.
    + simpl. by rewrite Hu.
    + destruct w. unfold VoiceSystem.toggleVoice. run_m.
      unfold set_isVoiceEnabled. simpl. by rewrite negb_involutive.
  - simpl. repeat split.
    + by rewrite app_nil_r.
    + destruct w. unfold VoiceSystem.toggleVoice. run_m.
      unfold set_isVoiceEnabled. simpl. by rewrite negb_involutive.
Qed.

(** ** Quizzes *)

Lemma registry_options_distinct :
  map_Forall (λ _ t, map_Forall (λ _ r, quiz_options_distinct r = true) (responses t)) topics.
Proof. apply (bool_decide_unpack _). vm_compute. reflexivity. Qed.

Lemma judged_correct_displayed q o w :
  judged_correct o (displayQuiz q w).2 = bool_decide (o = correctAnswer q).
Proof. reflexivity. Qed.

(** X15: every quiz of the registry, once displayed, has exactly one option
    the quiz engine judges correct, the one named as the correct answer: the
    options are pairwise distinct and an option is judged correct exactly
    when it is that answer.  Before any quiz is displayed, that is in every
    world in which no quiz is current, no answer is judged at all:
    [checkAnswer] returns [null] and changes nothing. *)
Theorem one_option_is_correct (topicId i : string) (t : Topic)
    (r : ResponseTemplate) (q : Quiz) (w : World) :
  topics !! topicId = Some t →
  responses t !! i = Some r →
  quiz r = Some q →
  NoDup (options q) ∧
  filter (λ o, judged_correct o (displayQuiz q w).2 = true) (options q) = [correctAnswer q] ∧
  (∀ o, judged_correct o (displayQuiz q w).2 = true ↔ o = correctAnswer q) ∧
  (∀ o w0, currentQuiz w0 = None →
     QuizEngine.checkAnswer o w0 = (Normal None, w0) ∧ judged_correct o w0 = false).
Proof.
  intros Ht Hr Hq.
  assert (Hnd : NoDup (options q)).
  { pose proof (registry_options_distinct topicId t Ht i r Hr) as H.
    unfold quiz_options_distinct in H. rewrite Hq in H. by apply bool_decide_eq_true in H. }
  assert (Hin : correctAnswer q ∈ options q).
  { pose proof (registry_quizzes_checked topicId t Ht i r Hr) as H.
    unfold quiz_answer_listed in H. rewrite Hq in H. by apply bool_decide_eq_true in H. }
  assert (Hiff : ∀ o, judged_correct o (displayQuiz q w).2 = true ↔ o = correctAnswer q).
  { intros o. rewrite judged_correct_displayed. apply bool_decide_eq_true. }
  split; [done|]. split; [|split; [done|]].
  - apply filter_only; [done | done | by apply Hiff |].
    intros y _ Hy. by apply Hiff.
  - intros o w0 H0. unfold judged_correct, QuizEngine.checkAnswer. run_m. by rewrite H0.
Qed.

(** The heart quiz: of "2", "3", "4" and "5" only "4" is judged correct. *)
Lemma one_option_is_correct_witness :
  ∃ q, quiz <$> responses heart_anatomy !! "explain" = Some (Some q) ∧
       filter (λ o, judged_correct o (displayQuiz q init).2 = true) (options q) =
         [correctAnswer q] ∧
       judged_correct (correctAnswer q) (cleared init) = false.
Proof.
  destruct (responses heart_anatomy !! "explain") as [r|] eqn:Hr; [|by vm_compute in Hr].
  destruct (quiz r) as [q|] eqn:Hq.
  - exists q. split; [simpl; by rewrite Hq|].
    destruct (one_option_is_correct "heart-anatomy" "explain" heart_anatomy r q init
                ltac:(vm_compute; reflexivity) Hr Hq) as (_ & Hone & _ & Hnone).
    split; [exact Hone|].
    apply (Hnone (correctAnswer q) (cleared init)). reflexivity.
  - vm_compute in Hr. injection Hr as <-. by vm_compute in Hq.
Defined.

(** X16: the current quiz is never cleared and only ever replaced by a quiz
    of the registry.  A reply that carries a quiz makes it current; a reply
    without one leaves the previous quiz current, and so do [clearScene], a
    topic switch that aborts (the topic is not registered, nor an inherited
    property name) and an answer to the quiz; hence a turn, and a history of
    turns, that starts with a quiz current ends with a quiz current, and in
    every world reached from the initial one the current quiz, if any, is a
    quiz of a template of the registry. *)
Theorem quiz_stays_until_replaced (fetch : nat → string → bool)
    (registry : gmap string Topic) :
  (∀ b w, currentQuiz (handleAIResponse fetch (Some b) w).2 =
          match quiz (response b) with
          | Some q => Some q
          | None => currentQuiz w
          end) ∧
  (∀ history,
     match currentQuiz (run fetch registry history init) with
     | Some q => registry_quiz registry q
     | None => True
     end) ∧
  (∀ w, currentQuiz (clearScene w).2 = currentQuiz w) ∧
  (∀ selected w, currentQuiz (handleQuizAnswer selected w).2 = currentQuiz w) ∧
  (∀ topicId w, inherited_key topicId = false → registry !! topicId = None →
     currentQuiz (loadTopic fetch registry topicId w).2 = currentQuiz w) ∧
  (∀ e w, is_Some (currentQuiz w) → is_Some (currentQuiz (turn fetch registry e w).2)) ∧
  (∀ history w, is_Some (currentQuiz w) →
     is_Some (currentQuiz (run fetch registry history w))).
Proof.
  assert (Hreply : ∀ b w, currentQuiz (handleAIResponse fetch (Some b) w).2 =
            match quiz (response b) with Some q => Some q | None => currentQuiz w end).
  { intros b w. rewrite handleAIResponse_bundle. simpl.
    destruct (quiz (response b)); simpl; [done|].
    rewrite (ext_quiz _ _ (executeSceneActions_extends fetch _ _)).
    unfold narrate, VoiceSystem.speak. run_m. by destruct (isVoiceEnabled w). }
  assert (Hkeep : ∀ reply w, is_Some (currentQuiz w) →
            is_Some (currentQuiz (handleAIResponse fetch reply w).2)).
  { intros [b|] w Hw; [|done]. rewrite Hreply. by destruct (quiz (response b)). }
  assert (Hturn : ∀ e w, is_Some (currentQuiz w) →
            is_Some (currentQuiz (turn fetch registry e w).2)).
  { intros [topicId | text] w Hw; simpl.
    - destruct (registry !! topicId) as [t|] eqn:Ht.
      + rewrite (loadTopic_registered _ _ _ _ _ Ht). by apply Hkeep.
      + by rewrite (loadTopic_unknown _ _ _ _ Ht).
    - destruct (decide (text = "")) as [->|Hne]; [done|].
      rewrite (handleUserInput_asked _ _ _ _ Hne). by apply Hkeep. }
  split; [exact Hreply|].
  split; [|split; [|split; [|split; [|split]]]].
  2:{ intros w. by rewrite clearScene_cleared. }
  2:{ intros selected w. unfold handleQuizAnswer, QuizEngine.checkAnswer, VoiceSystem.speak.
      run_m. destruct (currentQuiz w) eqn:Hq; simpl; [|done].
      destruct (isVoiceEnabled w); simpl; done. }
  2:{ intros topicId w _ Ht. by rewrite (loadTopic_unknown _ _ _ _ Ht). }
  2:{ exact Hturn. }
  2:{ intros history w. by apply (run_invariant fetch registry (λ w, is_Some (currentQuiz w))). }
  intros history.
  apply (run_invariant fetch registry
           (λ w, match currentQuiz w with Some q => registry_quiz registry q | None => True end));
    [|done].
  assert (Hquery : ∀ topicId text w,
    match currentQuiz w with Some q => registry_quiz registry q | None => True end →
    match currentQuiz (handleAIResponse fetch (processQuery registry topicId text) w).2 with
    | Some q => registry_quiz registry q | None => True end).
  { intros topicId text w Hw. unfold processQuery.
    destruct (registry !! topicId) as [t|] eqn:Ht; [|done].
    destruct (responses t !! detectIntent topicId text) as [r|] eqn:Hr.
    - rewrite Hreply. simpl. destruct (quiz r) as [q|] eqn:Hq; [|done].
      by exists topicId, t, (detectIntent topicId text), r.
    - rewrite Hreply. simpl. destruct (responses t !! "explain") as [r|] eqn:He; simpl.
      + destruct (quiz r) as [q|] eqn:Hq; [|done]. by exists topicId, t, "explain", r.
      + done. }
  intros [topicId | text] w Hw; simpl.
  - destruct (registry !! topicId) as [t|] eqn:Ht.
    + rewrite (loadTopic_registered _ _ _ _ _ Ht). by apply Hquery.
    + by rewrite (loadTopic_unknown _ _ _ _ Ht).
  - destruct (decide (text = "")) as [->|Hne]; [done|].
    rewrite (handleUserInput_asked _ _ _ _ Hne). by apply Hquery.
Qed.

(** The volcano quiz stays through a switch to a topic that does not
    exist and through a wrong answer. *)
Lemma quiz_stays_until_replaced_witness :
  let fetch := λ (_ : nat) (_ : string), true in
  let w := (loadTopic fetch topics "volcano" init).2 in
  is_Some (currentQuiz w) ∧
  currentQuiz (loadTopic fetch topics "mars-colony" w).2 = currentQuiz w ∧
  is_Some (currentQuiz (run fetch topics [SwitchTopic "mars-colony"; UserInput "hello"] w)).
Proof.
  intros fetch w.
  destruct (quiz_stays_until_replaced fetch topics) as (_ & _ & _ & _ & Habort & _ & Hrun).
  assert (Hq : is_Some (currentQuiz w)) by (vm_compute; eauto).
  split; [exact Hq|]. split.
  - apply Habort; reflexivity.
  - apply Hrun, Hq.
Defined.

(** X17: answering a quiz.  With no quiz current nothing happens.  With a
    quiz current the feedback shown is the quiz's own text for a right or a
    wrong answer, marked accordingly; the same is spoken, prefixed by the
    verdict, when the voice is on; the quiz stays current, so it can be
    answered again, and the scene, the chat and the console are untouched. *)
Theorem quiz_answer_feedback (selected : string) (w : World) :
  (currentQuiz w = None → handleQuizAnswer selected w = (Normal None, w)) ∧
  (∀ q, currentQuiz w = Some q →
     let right := bool_decide (selected = correctAnswer q) in
     let text := if right then correctFeedback q else incorrectFeedback q in
     handleQuizAnswer selected w =
       (Normal (Some (mkFeedback text
                        (if right then "quiz-feedback correct" else "quiz-feedback incorrect"))),
        if isVoiceEnabled w
        then set_utterances
               (λ l, l ++ [(if right then "Correct! " else "Incorrect. ") +:+ text]) w
        else w)).
Proof.
  split.
  - intros Hq. unfold handleQuizAnswer, QuizEngine.checkAnswer. run_m. by rewrite Hq.
  - intros q Hq right text. subst right text.
    unfold handleQuizAnswer, QuizEngine.checkAnswer, VoiceSystem.speak. run_m.
    rewrite Hq. simpl.
    destruct (isVoiceEnabled w), (bool_decide (selected = correctAnswer q)); reflexivity.
Qed.

(** The volcano quiz answered with "Lava" and then with "Magma". *)
Lemma quiz_answer_feedback_witness :
  let fetch := λ (_ : nat) (_ : string), true in
  let w := (loadTopic fetch topics "volcano" init).2 in
  (handleQuizAnswer "Lava" w).1 =
    Normal (Some (mkFeedback
      "Not quite. The correct answer is Magma. Lava is what it's called after it erupts."
      "quiz-feedback incorrect")) ∧
  (handleQuizAnswer "Magma" (handleQuizAnswer "Lava" w).2).1 =
    Normal (Some (mkFeedback
      "Correct! Magma is molten rock below the surface, which becomes lava when it erupts."
      "quiz-feedback correct")) ∧
  handleQuizAnswer "Magma" init = (Normal None, init).
Proof.
  intros fetch w.
  destruct (currentQuiz w) as [q|] eqn:Hq; [|by vm_compute in Hq].
  destruct (quiz_answer_feedback "Lava" w) as (_ & H1). specialize (H1 q Hq).
  destruct (currentQuiz (handleQuizAnswer "Lava" w).2) as [q'|] eqn:Hq';
    [|by vm_compute in Hq'].
  destruct (quiz_answer_feedback "Magma" (handleQuizAnswer "Lava" w).2) as (_ & H2).
  specialize (H2 q' Hq').
  destruct (quiz_answer_feedback "Magma" init) as (H3 & _).
  split; [|split; [|apply H3; reflexivity]].
  - rewrite H1. clear - Hq. vm_compute in Hq. injection Hq as <-. vm_compute. reflexivity.
  - rewrite H2. clear - Hq'. vm_compute in Hq'. injection Hq' as <-. vm_compute. reflexivity.
Defined.

(** ** What [clearScene] leaves *)

Lemma filter_agree {A} (P Q : A → Prop) `{!∀ x, Decision (P x), !∀ x, Decision (Q x)}
    (l : list A) :
  (∀ x, x ∈ l → P x ↔ Q x) → filter P l = filter Q l.
Proof.
  induction l as [|x l IH]; intros Hpq; [done|].
  rewrite !filter_cons.
  destruct (decide (P x)) as [Hp|Hp], (decide (Q x)) as [Hq|Hq].
  - f_equal. apply IH. intros y Hy. apply Hpq. by right.
  - exfalso. apply Hq, (Hpq x); [left | done].
  - exfalso. apply Hp, (Hpq x); [left | done].
  - apply IH. intros y Hy. apply Hpq. by right.
Qed.

Lemma cleared_children w : scene_ok w → children (cleared w) = fixtures w.
Proof.
  intros [H1 H2 H3 H4]. unfold fixtures. simpl. apply filter_agree.
  intros id Hid. split.
  - intros Hout. destruct (heap w !! id) as [o|] eqn:Ho; [|done]. simpl.
    destruct (source o) as [k|] eqn:Hs; [|done].
    exfalso. apply Hout. apply (cached_in_values w k id). by apply (H3 id o k).
  - intros Hnone Hin. apply list_elem_of_fmap in Hin as ([k id'] & -> & Hin).
    apply elem_of_map_to_list in Hin. simpl in *.
    destruct (H4 _ _ Hin) as (_ & o & Ho & Hs).
    rewrite Ho in Hnone. simpl in Hnone. congruence.
Qed.

Lemma fixtures_loaded m p s w : scene_ok w → fixtures (loaded m p s w) = fixtures w.
Proof.
  intros [H1 H2 H3 H4]. unfold fixtures. simpl.
  rewrite filter_app, filter_cons_False, filter_nil, app_nil_r.
  - apply filter_agree. intros id Hid.
    by rewrite lookup_app_l by by apply H2.
  - by rewrite list_lookup_middle.
Qed.

(** X18: [clearScene] removes the models and nothing else.  In a consistent
    scene the children it leaves are the ones that are not models, in their
    order, and the cache and the animations are empty; the objects, the
    requests count, the chat, the console and the quiz are as they were.  So
    in every world reached from the initial one by a schedule in which the
    user waits (every click on a topic and every text comes when no asset
    request is in flight), whatever was loaded, clearing leaves the ambient
    and the directional light. *)
Theorem clearScene_leaves_the_lights (registry : gmap string Topic)
    (tasks : list EventLoop.Task) :
  (∀ w, scene_ok w →
     ∃ w', clearScene w = (Normal tt, w') ∧
           children w' = fixtures w ∧ models w' = ∅ ∧ animations w' = [] ∧
           heap w' = heap w ∧ requests w' = requests w ∧
           chat w' = chat w ∧ console w' = console w ∧ currentQuiz w' = currentQuiz w) ∧
  (EventLoop.patient registry tasks EventLoop.start →
   let w := EventLoop.world (EventLoop.run registry tasks EventLoop.start) in
   ∃ w', clearScene w = (Normal tt, w') ∧ children w' = [0; 1]).
Proof.
  split.
  { intros w Hok. exists (cleared w). split; [apply clearScene_cleared|].
    split; [by apply cleared_children | done]. }
  intros Hp w. exists (cleared w). split; [apply clearScene_cleared|].
  destruct (schedule_invariant registry (λ w, scene_ok w ∧ fixtures w = [0; 1])) with
    (tasks := tasks) (l := EventLoop.start) as [[Hok Hfix] _]; try done.
  - intros w1 w2 Hh Hc Hm _ [Hok Hfix]. split; [by eapply scene_ok_ext|].
    unfold fixtures in *. by rewrite Hh, Hc.
  - intros a w1 [Hok Hfix]. split; [by apply tryAction_scene_ok|].
    destruct (tryAction_scene EventLoop.unasked a w1)
      as [(Hh & Hc & _) | (m & p0 & s0 & p & s & _ & _ & _ & ->)].
    + unfold fixtures in *. by rewrite Hh, Hc.
    + by rewrite fixtures_loaded.
  - intros w1 [Hok Hfix]. split; [by apply scene_ok_cleared|].
    change (fixtures (cleared w1)) with
      (filter (λ id, (heap w1 !! id) ≫= source = None) (children (cleared w1))).
    rewrite (cleared_children w1 Hok). unfold fixtures.
    rewrite list_filter_filter_l by done. exact Hfix.
  - intros m p s w1 Hm [Hok Hfix]. split; [by apply scene_ok_loaded|].
    by rewrite fixtures_loaded.
  - split; [apply scene_ok_init | reflexivity].
  - by rewrite cleared_children.
Qed.

(** The solar system as shown once both assets are there: the scene holds
    the two lights, the sun and the earth, and clearing leaves the lights. *)
Lemma clearScene_leaves_the_lights_witness :
  let tasks := [EventLoop.Click "solar-system"; EventLoop.Answer 0 true;
                EventLoop.Answer 0 true] in
  let w := EventLoop.world (EventLoop.run topics tasks EventLoop.start) in
  children w = [0; 1; 2; 3] ∧
  ∃ w', clearScene w = (Normal tt, w') ∧ children w' = [0; 1].
Proof.
  intros tasks w. split; [vm_compute; reflexivity|].
  destruct (clearScene_leaves_the_lights topics tasks) as [_ H].
  apply H. vm_compute. repeat split; reflexivity.
Defined.

(** ** The stand-alone scene script *)

Lemma foldl_remove (objs ch : list nat) :
  foldl (λ ch obj, filter (λ c, c ≠ obj) ch) ch objs = filter (λ c, c ∉ objs) ch.
Proof.
  revert ch. induction objs as [|obj objs IH]; intros ch; simpl.
  - symmetry. apply filter_all. intros x _. apply not_elem_of_nil.
  - rewrite IH, list_filter_filter. apply list_filter_iff.
    intros c. rewrite not_elem_of_cons. tauto.
Qed.

Lemma app_clearScene_empty s :
  App.sceneChildren s = App.activeObjects s →
  App.sceneChildren (App.clearScene s) = [] ∧ App.activeObjects (App.clearScene s) = [] ∧
  App.meshes (App.clearScene s) = App.meshes s.
Proof.
  intros Hsame. unfold App.clearScene. simpl. rewrite foldl_remove, <- Hsame.
  split; [|done]. apply filter_none. intros x Hx Hnot. by apply Hnot.
Qed.

Lemma app_stage_ok_empty s :
  App.sceneChildren s = [] → App.activeObjects s = [] → App.stage_ok s.
Proof.
  intros Hc Ha. constructor; rewrite ?Hc, ?Ha; [done | constructor |].
  intros obj Hobj. by apply elem_of_nil in Hobj.
Qed.

Lemma omap_lookup_app {A} (h t : list A) (l : list nat) :
  (∀ x, x ∈ l → x < length h) →
  omap (λ o, (h ++ t) !! o) l = omap (λ o, h !! o) l.
Proof.
  induction l as [|x l IH]; intros Hl; [done|]. csimpl.
  rewrite lookup_app_l by (apply Hl; left).
  rewrite IH; [done|]. intros y Hy. apply Hl. by right.
Qed.

Lemma app_place m s :
  App.stage_ok s →
  App.stage_ok (App.place m s) ∧ App.shown (App.place m s) = App.shown s ++ [m].
Proof.
  intros [Hsame Hnd Hal]. split.
  - constructor; simpl.
    + by rewrite Hsame.
    + apply NoDup_app. split; [done|]. split; [|apply NoDup_singleton].
      intros x Hx Hx'. apply list_elem_of_singleton in Hx'. subst.
      apply Hal in Hx. lia.
    + intros obj Hobj. rewrite length_app. simpl.
      apply elem_of_app in Hobj as [Hobj|Hobj].
      * apply Hal in Hobj. lia.
      * apply list_elem_of_singleton in Hobj. lia.
  - unfold App.shown. simpl. rewrite omap_app. simpl.
    rewrite list_lookup_middle by done. by rewrite omap_lookup_app.
Qed.

Lemma app_place_iter n m s :
  App.stage_ok s →
  App.stage_ok (Nat.iter n (App.place m) s) ∧
  App.shown (Nat.iter n (App.place m) s) = App.shown s ++ replicate n m.
Proof.
  intros Hok. induction n as [|n [IHok IHs]]; simpl.
  - by rewrite app_nil_r.
  - destruct (app_place m _ IHok) as [Hok' Hs']. split; [done|].
    rewrite Hs', IHs, <- app_assoc. f_equal.
    clear. induction n as [|n IH]; [done|]. simpl. by rewrite IH.
Qed.

Lemma app_click topic s :
  App.sceneChildren s = App.activeObjects s →
  App.stage_ok (App.click topic s) ∧ App.shown (App.click topic s) = App.population topic.
Proof.
  intros Hsame. destruct (app_clearScene_empty s Hsame) as (Hc & Ha & _).
  pose proof (app_stage_ok_empty _ Hc Ha) as Hok.
  assert (Hshown : App.shown (App.clearScene s) = []) by (unfold App.shown; by rewrite Hc).
  unfold App.click, App.population. cbn zeta.
  set (s0 := App.clearScene s) in *.
  repeat case_decide.
  - unfold App.addSolarSystem. simpl.
    destruct (app_place App.Sun s0 Hok) as [K1 S1].
    destruct (app_place (App.Planet 0 2%Q) _ K1) as [K2 S2].
    destruct (app_place (App.Planet 1 3.5%Q) _ K2) as [K3 S3].
    destruct (app_place (App.Planet 2 5%Q) _ K3) as [K4 S4].
    split; [done|]. by rewrite S4, S3, S2, S1, Hshown.
  - unfold App.addVolcano.
    destruct (app_place App.Cone s0 Hok) as [K1 S1].
    destruct (app_place_iter 50 App.Particle _ K1) as [K2 S2].
    split; [done|]. by rewrite S2, S1, Hshown.
  - unfold App.addHeart. destruct (app_place App.Heart s0 Hok) as [K1 S1].
    split; [done|]. by rewrite S1, Hshown.
  - unfold App.addCube. destruct (app_place App.Cube s0 Hok) as [K1 S1].
    split; [done|]. by rewrite S1, Hshown.
Qed.

Lemma app_clicks_ok history s : App.stage_ok s → App.stage_ok (App.clicks history s).
Proof.
  revert s. induction history as [|topic history IH]; intros s Hok; [done|].
  simpl. apply IH. by apply app_click, Hok.
Qed.

Lemma app_start_ok : App.stage_ok App.start.
Proof.
  apply (app_place App.Cube (App.mkStage [] [] [])).
  by apply app_stage_ok_empty.
Qed.

(** X19: in the stand-alone script a click on a topic button rebuilds the
    scene from nothing.  Whatever was clicked before, after the click the
    scene shows exactly the meshes of the clicked topic, in the order they
    are built: the sun and three planets, the cone and fifty particles, the
    heart, or, for any other button, the cube.  Nothing of an earlier topic
    is left and nothing is shown twice. *)
Theorem click_rebuilds_scene (history : list (option string)) (topic : option string) :
  let s := App.click topic (App.clicks history App.start) in
  App.shown s = App.population topic ∧
  length (App.sceneChildren s) = length (App.population topic) ∧
  NoDup (App.sceneChildren s).
Proof.
  intros s.
  pose proof (app_clicks_ok history _ app_start_ok) as Hok.
  destruct (app_click topic _ (App.stage_same _ Hok)) as [Hok' Hshown].
  fold s in Hok', Hshown. split; [done|]. split; [|by destruct Hok'].
  rewrite <- Hshown. unfold App.shown.
  destruct Hok' as [_ _ Hal]. clear Hshown.
  induction (App.sceneChildren s) as [|x l IH]; [done|]. csimpl.
  destruct (lookup_lt_is_Some_2 (App.meshes s) x) as [m Hm]; [apply Hal; left|].
  rewrite Hm. simpl. f_equal. apply IH. intros y Hy. apply Hal. by right.
Qed.

(** X20: in every state the script can reach, the scene holds the active
    objects and nothing else, no mesh twice; hence [clearScene] always
    empties the scene completely, and never destroys a mesh it has built. *)
Theorem script_scene_is_active_objects (history : list (option string)) :
  let s := App.clicks history App.start in
  App.stage_ok s ∧
  App.sceneChildren (App.clearScene s) = [] ∧
  App.activeObjects (App.clearScene s) = [] ∧
  App.meshes (App.clearScene s) = App.meshes s.
Proof.
  intros s.
  pose proof (app_clicks_ok history _ app_start_ok) as Hok. fold s in Hok.
  split; [done|]. apply app_clearScene_empty. by destruct Hok.
Qed.
